(** * Cluster log entries and the bounded per-channel log summary

    A shallow embedding of [src/common/LogEntry.h]: the identity of a log
    entry ([LogEntryKey]) with its cached hash, the entry itself
    ([LogEntry]) and the retention structure ([LogSummary]) with [add],
    [prune] and [contains].

    Conventions.
    - [uint64_t] values are integers in [Z]; the two places where the header
      does 64-bit arithmetic ([_calc_hash] and [++seq]) reduce modulo
      [2^64] explicitly.
    - [size_t] arguments and container sizes are [nat].
    - [map<string, list<...>>] is a [gmap string (list ...)]; the
      [unordered_set<LogEntryKey>] is a [gset LogEntryKey].
    - Types that come from other headers ([entity_name_t], [utime_t],
      [EntityName], [entity_addrvec_t]) and [hash<entity_name_t>] are the
      fields of the class [Externals]. *)

From Stdlib Require Import ZArith Lia Ascii.
From stdpp Require Import gmap strings list fin_maps sorting.

Local Open Scope Z_scope.

Set Warnings "-clear-no-such-hyp".

(** ** What the header takes from other headers *)

Class Externals := {
  (** [entity_name_t] of msg/msg_types.h, compared with its [==] *)
  entity_name_t : Type;
  entity_name_t_eq_dec :: EqDecision entity_name_t;
  entity_name_t_countable :: Countable entity_name_t;
  (** the value built by [entity_name_t()] *)
  entity_name_t_default : entity_name_t;
  (** [hash<entity_name_t>::operator()] *)
  hash_entity_name_t : entity_name_t -> Z;
  (** [utime_t] of include/utime.h, compared with its [==] *)
  utime_t : Type;
  utime_t_eq_dec :: EqDecision utime_t;
  utime_t_countable :: Countable utime_t;
  (** the value built by [utime_t()] *)
  utime_t_default : utime_t;
  (** [EntityName] of common/entity_name.h *)
  EntityName : Type;
  (** [entity_addrvec_t] of msg/msg_types.h *)
  entity_addrvec_t : Type
}.

(** Arithmetic on [uint64_t] wraps at [2^64]. *)
Definition uint64_mod : Z := 2 ^ 64.
Definition wrap64 (z : Z) : Z := z mod uint64_mod.

(** ** Severities *)

Inductive clog_type : Type :=
| CLOG_DEBUG
| CLOG_INFO
| CLOG_SEC
| CLOG_WARN
| CLOG_ERROR
| CLOG_UNKNOWN.

(** The numeric value of each enumerator. *)
Definition clog_type_value (t : clog_type) : Z :=
  match t with
  | CLOG_DEBUG => 0
  | CLOG_INFO => 1
  | CLOG_SEC => 2
  | CLOG_WARN => 3
  | CLOG_ERROR => 4
  | CLOG_UNKNOWN => -1
  end.

Definition CLOG_CHANNEL_NONE : string := "none".
Definition CLOG_CHANNEL_DEFAULT : string := "cluster".
Definition CLOG_CHANNEL_CLUSTER : string := "cluster".
Definition CLOG_CHANNEL_AUDIT : string := "audit".
Definition CLOG_CONFIG_DEFAULT_KEY : string := "default".

(** [operator<<(ostream&, clog_type)], on the integer value the enum
    object holds: the [switch] has a case for each of the five named
    severities and a [default:] for every other value, [CLOG_UNKNOWN] and
    values that are not enumerators (a cast, a decoded [prio]) alike. *)
Definition clog_type_out (v : Z) : string :=
  if v =? 0 then "[DBG]"
  else if v =? 1 then "[INF]"
  else if v =? 2 then "[SEC]"
  else if v =? 3 then "[WRN]"
  else if v =? 4 then "[ERR]"
  else "[???]".

(** The same on an enumerator. *)
Definition clog_type_tag (t : clog_type) : string :=
  clog_type_out (clog_type_value t).

Section LogEntry.
Context `{X : Externals}.

(** ** LogEntryKey *)

(** The struct has four data members: the cached [_hash] and the three
    fields of the identity, [rank], [stamp] and [seq] ([key_rank],
    [key_stamp] and [key_seq] here). *)
Record LogEntryKey : Type := MkLogEntryKey {
  _hash : Z;
  key_rank : entity_name_t;
  key_stamp : utime_t;
  key_seq : Z
}.

(** [_calc_hash]: [_hash = seq + h(rank)], in 64-bit arithmetic. *)
Definition _calc_hash (k : LogEntryKey) : LogEntryKey :=
  {| _hash := wrap64 (key_seq k + hash_entity_name_t (key_rank k));
     key_rank := key_rank k;
     key_stamp := key_stamp k;
     key_seq := key_seq k |}.

(** [LogEntryKey()]: the member initialisers give [_hash = 0], [seq = 0];
    [rank] and [stamp] are default-constructed; the body is empty. *)
Definition LogEntryKey_default : LogEntryKey :=
  {| _hash := 0;
     key_rank := entity_name_t_default;
     key_stamp := utime_t_default;
     key_seq := 0 |}.

(** [LogEntryKey(w, t, s)]: initialises the three fields ([_hash] starts at
    its member initialiser [0]) and calls [_calc_hash]. *)
Definition LogEntryKey_new (w : entity_name_t) (t : utime_t) (s : Z) : LogEntryKey :=
  _calc_hash {| _hash := 0; key_rank := w; key_stamp := t; key_seq := s |}.

Definition get_hash (k : LogEntryKey) : Z := _hash k.

(** [operator==]: rank, stamp and seq; the cached hash is not compared. *)
Definition key_eqb (l r : LogEntryKey) : bool :=
  bool_decide (key_rank l = key_rank r)
  && bool_decide (key_stamp l = key_stamp r)
  && bool_decide (key_seq l = key_seq r).

(** The ways the header offers to build a key. *)
Inductive constructed : LogEntryKey -> Prop :=
| constructed_default : constructed LogEntryKey_default
| constructed_new w t s : constructed (LogEntryKey_new w t s).

#[export] Instance LogEntryKey_eq_dec : EqDecision LogEntryKey.
Proof. solve_decision. Defined.

#[export] Instance LogEntryKey_countable : Countable LogEntryKey.
Proof.
  refine (inj_countable'
            (fun k => (_hash k, key_rank k, key_stamp k, key_seq k))
            (fun t => let '(h, r, st, s) := t in MkLogEntryKey h r st s) _).
  intros []; reflexivity.
Defined.

(** ** LogEntry *)

Record LogEntry : Type := MkLogEntry {
  name : EntityName;
  rank : entity_name_t;
  addrs : entity_addrvec_t;
  stamp : utime_t;
  seq : Z;
  prio : clog_type;
  msg : string;
  channel : string
}.

(** [LogEntry::key] *)
Definition key (e : LogEntry) : LogEntryKey :=
  LogEntryKey_new (rank e) (stamp e) (seq e).

(** ** LogSummary *)

(** The member [seq] of the struct is [summary_seq] here, [seq] being the
    field of [LogEntry]. *)
Record LogSummary : Type := MkLogSummary {
  version : Z;
  (** channel -> [(seq#, entry), ...] *)
  tail_by_channel : gmap string (list (Z * LogEntry));
  summary_seq : Z;
  keys : gset LogEntryKey
}.

(** [LogSummary()] *)
Definition LogSummary_new : LogSummary :=
  {| version := 0; tail_by_channel := ∅; summary_seq := 0; keys := ∅ |}.

(** [tail_by_channel[ch]]: the list of the channel, empty when the channel
    is not there yet ([operator[]] creates it). *)
Definition channel_list (m : gmap string (list (Z * LogEntry))) (ch : string)
  : list (Z * LogEntry) :=
  default [] (m !! ch).

(** [add]: insert the key, pre-increment [seq], append to the channel. *)
Definition add (e : LogEntry) (s : LogSummary) : LogSummary :=
  let keys' := {[ key e ]} ∪ keys s in
  let seq' := wrap64 (summary_seq s + 1) in
  {| version := version s;
     tail_by_channel :=
       <[ channel e := channel_list (tail_by_channel s) (channel e) ++ [(seq', e)] ]>
         (tail_by_channel s);
     summary_seq := seq';
     keys := keys' |}.

(** The [while] loop of [prune] on one channel: as long as the list is
    longer than [max], erase the key of the front entry and pop it. *)
Fixpoint prune_list (max : nat) (l : list (Z * LogEntry)) (ks : gset LogEntryKey)
  : list (Z * LogEntry) * gset LogEntryKey :=
  match l with
  | [] => ([], ks)
  | p :: l' =>
      if decide (max < length l)%nat
      then prune_list max l' (ks ∖ {[ key p.2 ]})
      else (l, ks)
  end.

(** One iteration of the [for] loop of [prune]. *)
Definition prune_channel (max : nat) (ch : string) (l : list (Z * LogEntry))
    (s : LogSummary) : LogSummary :=
  let r := prune_list max l (keys s) in
  {| version := version s;
     tail_by_channel := <[ ch := r.1 ]> (tail_by_channel s);
     summary_seq := summary_seq s;
     keys := r.2 |}.

(** [prune]: the loop over all channels.  [std::map] visits them in the
    order of their names and [map_fold] in an order of its own; each
    iteration rewrites its own channel and erases from [keys], so the order
    of the visits does not show in the result (lemma [prune_spec]). *)
Definition prune (max : nat) (s : LogSummary) : LogSummary :=
  map_fold (prune_channel max) s (tail_by_channel s).

(** [contains]: [keys.count(k)].  The set compares its elements with
    [operator==]; the keys it holds are all built by [LogEntry::key], and on
    such keys [operator==] is equality of the whole object (lemma
    [key_eqb_new_eq]). *)
Definition contains (k : LogEntryKey) (s : LogSummary) : bool :=
  bool_decide (k ∈ keys s).

(** ** Views of a summary used to state its properties *)

(** All stored pairs, over all channels. *)
Definition entries (m : gmap string (list (Z * LogEntry))) : list (Z * LogEntry) :=
  mjoin (map_to_list m).*2.

(** The identities of the stored pairs, as a list and as a set. *)
Definition entry_keys (l : list (Z * LogEntry)) : list LogEntryKey :=
  (fun p => key p.2) <$> l.

Definition retained_keys (s : LogSummary) : gset LogEntryKey :=
  list_to_set (entry_keys (entries (tail_by_channel s))).

(** [keys] mirrors the retained records. *)
Definition mirrors (s : LogSummary) : Prop := keys s = retained_keys s.

(** No two retained records share an identity. *)
Definition distinct_identities (s : LogSummary) : Prop :=
  NoDup (entry_keys (entries (tail_by_channel s))).

(** What one channel keeps and what it loses under a cap of [max]. *)
Definition keep_last (max : nat) (l : list (Z * LogEntry)) : list (Z * LogEntry) :=
  drop (length l - max) l.

Definition drop_front (max : nat) (l : list (Z * LogEntry)) : list (Z * LogEntry) :=
  take (length l - max) l.

(** The assigned sequence numbers of a channel are strictly increasing and
    none is ahead of the counter. *)
Definition channel_ordered (bound : Z) (l : list (Z * LogEntry)) : Prop :=
  StronglySorted Z.lt l.*1 /\ Forall (fun p => p.1 <= bound) l.

Definition seq_ordered (s : LogSummary) : Prop :=
  0 <= summary_seq s < uint64_mod /\
  forall ch l, tail_by_channel s !! ch = Some l -> channel_ordered (summary_seq s) l.

(** ** Histories of calls *)

Inductive op : Type :=
| Add (e : LogEntry)
| Prune (max : nat).

Definition step (s : LogSummary) (o : op) : LogSummary :=
  match o with
  | Add e => add e s
  | Prune max => prune max s
  end.

Definition run (ops : list op) (s : LogSummary) : LogSummary :=
  foldl step s ops.

(** Admission of several records in a row, first to last. *)
Definition add_all (es : list LogEntry) (s : LogSummary) : LogSummary :=
  foldl (fun acc e => add e acc) s es.

(** Number of admissions in a history. *)
Fixpoint adds (ops : list op) : nat :=
  match ops with
  | [] => 0
  | Add _ :: ops' => S (adds ops')
  | Prune _ :: ops' => adds ops'
  end.

(** The sequence numbers handed out by the admissions of a history, in
    order: each [add] stores the value of the counter it has just
    incremented. *)
Fixpoint assigned (ops : list op) (s : LogSummary) : list Z :=
  match ops with
  | [] => []
  | Add e :: ops' => summary_seq (add e s) :: assigned ops' (add e s)
  | Prune max :: ops' => assigned ops' (prune max s)
  end.

(** States reached from the empty summary by [add] and [prune]. *)
Inductive reachable : LogSummary -> Prop :=
| reachable_new : reachable LogSummary_new
| reachable_add e s : reachable s -> reachable (add e s)
| reachable_prune max s : reachable s -> reachable (prune max s).

(** The same when every [add] is guarded by the membership test, the way a
    caller deduplicates: [if (!summary.contains(e.key())) summary.add(e)]. *)
Inductive reachable_dedup : LogSummary -> Prop :=
| reachable_dedup_new : reachable_dedup LogSummary_new
| reachable_dedup_add e s :
    reachable_dedup s -> contains (key e) s = false -> reachable_dedup (add e s)
| reachable_dedup_prune max s : reachable_dedup s -> reachable_dedup (prune max s).

(** ** The merged view *)





(** Order of two stored pairs by assigned number. *)
Definition seq_le (p q : Z * LogEntry) : Prop := p.1 <= q.1.

(** Sum of the lengths of all channels. *)
Definition total_length (s : LogSummary) : nat :=
  map_fold (fun _ l n => (length l + n)%nat) 0%nat (tail_by_channel s).

End LogEntry.

(** ** Parsing a severity *)

(** Lower-case form of an ASCII letter; other characters are unchanged. *)
Definition ascii_lower (c : ascii) : ascii :=
  let n := nat_of_ascii c in
  if ((65 <=? n) && (n <=? 90))%nat then ascii_of_nat (n + 32) else c.

Fixpoint lowercase (s : string) : string :=
  match s with
  | EmptyString => EmptyString
  | String c s' => String (ascii_lower c) (lowercase s')
  end.

(** Case-insensitive comparison of two strings. *)
Definition iequals (a b : string) : bool :=
  bool_decide (lowercase a = lowercase b).

(** Equality of two texts without regard to case, stated on the character
    codes: two characters are the same letter when they are equal or one is
    an upper-case ASCII letter and the other its lower-case form, 32 codes
    further; two texts are the same when they have the same length and the
    same letter at each position. *)
Definition is_upper (c : ascii) : Prop :=
  (65 <= nat_of_ascii c <= 90)%nat.

Definition same_letter (c d : ascii) : Prop :=
  c = d \/
  (is_upper c /\ nat_of_ascii d = (nat_of_ascii c + 32)%nat) \/
  (is_upper d /\ nat_of_ascii c = (nat_of_ascii d + 32)%nat).

Inductive same_text : string -> string -> Prop :=
| same_text_empty : same_text EmptyString EmptyString
| same_text_char c d a b :
    same_letter c d -> same_text a b -> same_text (String c a) (String d b).

(** The boolean form of [same_letter], and all the characters. *)
Definition same_letterb (c d : ascii) : bool :=
  Ascii.eqb c d
  || ((65 <=? nat_of_ascii c) && (nat_of_ascii c <=? 90)
      && (nat_of_ascii d =? nat_of_ascii c + 32))%nat
  || ((65 <=? nat_of_ascii d) && (nat_of_ascii d <=? 90)
      && (nat_of_ascii c =? nat_of_ascii d + 32))%nat.

Definition all_ascii : list ascii := ascii_of_nat <$> List.seq 0%nat 256%nat.

(** Modelled from the spec: [LogEntry::str_to_level] and
    [string_to_clog_type] are only declared in the header.  The
    specification describes one parser: the text is matched without regard
    to case against a fixed table of severity names, and the severity of the
    matching entry is returned, or [CLOG_UNKNOWN] when no entry matches.  The
    table itself is in neither the header nor the specification; it is the
    argument [names]. *)
Fixpoint str_to_level (names : list (string * clog_type)) (str : string) : clog_type :=
  match names with
  | [] => CLOG_UNKNOWN
  | (n, t) :: names' => if iequals str n then t else str_to_level names' str
  end.

(** ** A concrete instance, for examples *)

Module Sample.

(** Entity names and time stamps are integers here; the hash of an entity
    name is its successor. *)
#[export] Instance externals : Externals := {|
  entity_name_t := Z;
  entity_name_t_default := 0;
  hash_entity_name_t := fun z => z + 1;
  utime_t := Z;
  utime_t_default := 0;
  EntityName := string;
  entity_addrvec_t := list Z
|}.

Definition entry (who : Z) (t : Z) (q : Z) (text ch : string) : LogEntry :=
  {| name := "mon.a"; rank := who; addrs := []; stamp := t; seq := q;
     prio := CLOG_INFO; msg := text; channel := ch |}.

Definition rec_x : LogEntry := entry 7 100 1 "x" CLOG_CHANNEL_CLUSTER.
Definition rec_y : LogEntry := entry 7 101 2 "y" CLOG_CHANNEL_AUDIT.
Definition rec_z : LogEntry := entry 7 102 3 "z" CLOG_CHANNEL_CLUSTER.

(** A record with the identity of [rec_x], in the audit channel. *)
Definition rec_x_audit : LogEntry := entry 7 100 1 "x" CLOG_CHANNEL_AUDIT.

(** [rec_x], its double in the audit channel, then [rec_z]; a cap of one
    entry per channel then pops [rec_x]. *)
Definition collided : LogSummary :=
  prune 1 (add rec_z (add rec_x_audit (add rec_x LogSummary_new))).

(** Three distinct records, then a cap of one entry per channel. *)
Definition deduplicated : LogSummary :=
  prune 1 (add rec_z (add rec_y (add rec_x LogSummary_new))).

(** A table of severity names. *)
Definition names : list (string * clog_type) :=
  [("debug", CLOG_DEBUG); ("info", CLOG_INFO); ("sec", CLOG_SEC);
   ("warn", CLOG_WARN); ("error", CLOG_ERROR)].

End Sample.

(** ** Further views of the header *)

Section More_views.
Context `{X : Externals}.

(** [std::hash<LogEntryKey>::operator()] *)
Definition hash_LogEntryKey (r : LogEntryKey) : Z := get_hash r.

(** The entries that [prune(max)] pops, over all channels. *)
Definition popped (max : nat) (s : LogSummary) : list (Z * LogEntry) :=
  entries (drop_front max <$> tail_by_channel s).

(** The channels named by the admissions of a history. *)
Fixpoint added_channels (ops : list op) : gset string :=
  match ops with
  | [] => ∅
  | Add e :: ops' => {[ channel e ]} ∪ added_channels ops'
  | Prune _ :: ops' => added_channels ops'
  end.

(** Every stored record sits in the list of its own channel. *)
Definition stored_by_channel (s : LogSummary) : Prop :=
  forall ch l p, tail_by_channel s !! ch = Some l -> p ∈ l -> channel p.2 = ch.

(** No assigned number is stored twice, over all channels, and every
    stored number lies between 1 and the counter. *)
Definition seq_unique (s : LogSummary) : Prop :=
  0 <= summary_seq s < uint64_mod /\
  NoDup (entries (tail_by_channel s)).*1 /\
  Forall (fun p => 0 < p.1 <= summary_seq s) (entries (tail_by_channel s)).

End More_views.

(** Further sample states. *)
Module Sample_states.
Import Sample.

(** [rec_x], [rec_y] and [rec_z] admitted in this order, each after a
    negative membership test. *)
Definition three : LogSummary :=
  add rec_z (add rec_y (add rec_x LogSummary_new)).

Definition three_ops : list op := [Add rec_x; Add rec_y; Prune 1; Add rec_z].

End Sample_states.

(** * Properties *)

Section Key_facts.
Context `{X : Externals}.

Lemma wrap64_range z : 0 <= wrap64 z < uint64_mod.
Proof. unfold wrap64, uint64_mod. apply Z.mod_pos_bound. lia. Qed.

Lemma wrap64_small z : 0 <= z < uint64_mod -> wrap64 z = z.
Proof. intros H. unfold wrap64. apply Z.mod_small. exact H. Qed.

Lemma key_eqb_true (l r : LogEntryKey) :
  key_eqb l r = true <->
  key_rank l = key_rank r /\ key_stamp l = key_stamp r /\ key_seq l = key_seq r.
Proof.
  unfold key_eqb. rewrite !andb_true_iff, !bool_decide_eq_true. tauto.
Qed.

Lemma get_hash_new w t s :
  get_hash (LogEntryKey_new w t s) = wrap64 (s + hash_entity_name_t w).
Proof. reflexivity. Qed.

Lemma get_hash_default : get_hash LogEntryKey_default = 0.
Proof. reflexivity. Qed.

(** On keys built from their three fields, [operator==] is equality of the
    whole object: the cached hash adds nothing. *)
Lemma key_eqb_new_eq w1 t1 s1 w2 t2 s2 :
  key_eqb (LogEntryKey_new w1 t1 s1) (LogEntryKey_new w2 t2 s2) = true <->
  LogEntryKey_new w1 t1 s1 = LogEntryKey_new w2 t2 s2.
Proof.
  rewrite key_eqb_true. simpl. split.
  - intros (-> & -> & ->). reflexivity.
  - intros H. injection H as _ ? ? ?. auto.
Qed.

(** The default key equals the key built from the default fields, and the
    two hashes agree only if the hash of the default rank is a multiple of
    [2^64]. *)
Lemma default_key_hash_mismatch :
  wrap64 (hash_entity_name_t entity_name_t_default) <> 0 ->
  key_eqb LogEntryKey_default
          (LogEntryKey_new entity_name_t_default utime_t_default 0) = true /\
  get_hash LogEntryKey_default
    <> get_hash (LogEntryKey_new entity_name_t_default utime_t_default 0).
Proof.
  intros Hne. split.
  - apply key_eqb_true. simpl. auto.
  - rewrite get_hash_default, get_hash_new, Z.add_0_l.
    intros E. apply Hne. symmetry. exact E.
Qed.

End Key_facts.

Section Summary_facts.
Context `{X : Externals}.

Implicit Types (s : LogSummary) (e : LogEntry) (l : list (Z * LogEntry)).
Implicit Types (m : gmap string (list (Z * LogEntry))) (ks : gset LogEntryKey).

(** *** The loop on one channel *)

Lemma prune_list_spec max l ks :
  prune_list max l ks =
  (keep_last max l, ks ∖ list_to_set (entry_keys (drop_front max l))).
Proof.
  unfold keep_last, drop_front, entry_keys.
  revert ks. induction l as [|p l IH]; intros ks.
  - simpl. f_equal. set_solver.
  - cbn [prune_list]. case_decide as Hlen.
    + rewrite IH. cbn [length] in *.
      replace (S (length l) - max)%nat with (S (length l - max)) by lia.
      cbn [drop take fmap list_fmap list_to_set foldr]. f_equal.
      simpl. set_solver.
    + cbn [length] in *.
      replace (S (length l) - max)%nat with 0%nat by lia.
      simpl. f_equal. set_solver.
Qed.

Lemma keep_last_length max l : (length (keep_last max l) <= max)%nat.
Proof. unfold keep_last. rewrite length_drop. lia. Qed.

Lemma keep_last_short max l : (length l <= max)%nat -> keep_last max l = l.
Proof.
  intros H. unfold keep_last.
  replace (length l - max)%nat with 0%nat by lia. reflexivity.
Qed.

Lemma keep_last_suffix max l : keep_last max l `suffix_of` l.
Proof. apply suffix_drop. Qed.

Lemma drop_front_keep_last max l : drop_front max l ++ keep_last max l = l.
Proof. apply take_drop. Qed.

(** *** All stored pairs *)

Lemma entries_empty : entries (∅ : gmap string (list (Z * LogEntry))) = [].
Proof. unfold entries. rewrite map_to_list_empty. reflexivity. Qed.

Lemma entries_insert_fresh m ch l :
  m !! ch = None -> entries (<[ch := l]> m) ≡ₚ l ++ entries m.
Proof.
  intros H. unfold entries. rewrite (map_to_list_insert m ch l H). reflexivity.
Qed.

Lemma entries_lookup m ch l :
  m !! ch = Some l -> entries m ≡ₚ l ++ entries (delete ch m).
Proof.
  intros H. unfold entries. rewrite <- (map_to_list_delete m ch l H). reflexivity.
Qed.

Lemma entries_insert m ch l :
  entries (<[ch := l]> m) ≡ₚ l ++ entries (delete ch m).
Proof.
  rewrite <- insert_delete_eq. apply entries_insert_fresh, lookup_delete_eq.
Qed.

Lemma elem_of_entries m p :
  p ∈ entries m <-> exists ch l, m !! ch = Some l /\ p ∈ l.
Proof.
  unfold entries. rewrite list_elem_of_join. split.
  - intros (l & Hp & Hl). apply list_elem_of_fmap in Hl as ([ch l'] & -> & Hin).
    apply elem_of_map_to_list in Hin. eauto.
  - intros (ch & l & Hm & Hp). exists l. split; [exact Hp|].
    apply list_elem_of_fmap. exists (ch, l). split; [reflexivity|].
    apply elem_of_map_to_list. exact Hm.
Qed.

Lemma entries_length_insert_fresh m ch l :
  m !! ch = None ->
  length (entries (<[ch := l]> m)) = (length l + length (entries m))%nat.
Proof.
  intros H. rewrite (entries_insert_fresh m ch l H), length_app. reflexivity.
Qed.

(** A channel splits into what [prune] drops and what it keeps. *)
Lemma entries_split max m :
  entries m ≡ₚ entries (drop_front max <$> m) ++ entries (keep_last max <$> m).
Proof.
  induction m as [|ch l m Hfresh IH] using map_ind.
  - rewrite !fmap_empty, entries_empty. reflexivity.
  - rewrite !fmap_insert.
    rewrite !entries_insert_fresh by (rewrite ?lookup_fmap, Hfresh; reflexivity).
    rewrite IH. rewrite <- (drop_front_keep_last max l) at 1.
    solve_Permutation.
Qed.

(** *** [prune] as a whole *)

(** The loop leaves [version] and [seq] alone, caps every channel and
    erases the keys of what it pops. *)
Lemma prune_spec max s :
  version (prune max s) = version s /\
  summary_seq (prune max s) = summary_seq s /\
  tail_by_channel (prune max s) = keep_last max <$> tail_by_channel s /\
  keys (prune max s) =
    keys s ∖ list_to_set (entry_keys (entries (drop_front max <$> tail_by_channel s))).
Proof.
  unfold prune.
  set (T := tail_by_channel s).
  assert (Hgen : forall m,
    let r := map_fold (prune_channel max) s m in
    version r = version s /\
    summary_seq r = summary_seq s /\
    tail_by_channel r = (keep_last max <$> m) ∪ T /\
    keys r = keys s ∖ list_to_set (entry_keys (entries (drop_front max <$> m)))).
  { intros m. cbv zeta.
    apply (map_fold_weak_ind (fun r m =>
      version r = version s /\
      summary_seq r = summary_seq s /\
      tail_by_channel r = (keep_last max <$> m) ∪ T /\
      keys r = keys s ∖ list_to_set (entry_keys (entries (drop_front max <$> m))))).
    - rewrite !fmap_empty, entries_empty, (left_id_L ∅ (∪)).
      repeat split; try reflexivity. set_solver.
    - clear m. intros ch l m r Hfresh (Hv & Hq & Ht & Hk).
      unfold prune_channel. rewrite prune_list_spec. cbn.
      repeat split; try assumption.
      + rewrite Ht, fmap_insert. apply insert_union_l.
      + rewrite Hk, fmap_insert.
        rewrite (list_to_set_perm_L (C := gset LogEntryKey)
                   (entry_keys (entries (<[ch:=drop_front max l]> (drop_front max <$> m))))
                   (entry_keys (drop_front max l ++ entries (drop_front max <$> m)))).
        * unfold entry_keys. rewrite fmap_app, list_to_set_app_L. set_solver.
        * unfold entry_keys. apply fmap_Permutation, entries_insert_fresh.
          rewrite lookup_fmap, Hfresh. reflexivity. }
  destruct (Hgen T) as (Hv & Hq & Ht & Hk).
  repeat split; try assumption.
  rewrite Ht. apply map_eq. intros ch.
  rewrite lookup_union, !lookup_fmap. subst T.
  destruct (tail_by_channel s !! ch); reflexivity.
Qed.

Lemma prune_lookup max s ch :
  tail_by_channel (prune max s) !! ch = keep_last max <$> tail_by_channel s !! ch.
Proof.
  destruct (prune_spec max s) as (_ & _ & Ht & _).
  rewrite Ht, lookup_fmap. reflexivity.
Qed.

(** *** [add] *)

Lemma add_lookup_same e s :
  tail_by_channel (add e s) !! channel e =
  Some (channel_list (tail_by_channel s) (channel e) ++ [(summary_seq (add e s), e)]).
Proof. unfold add. cbn. apply lookup_insert_eq. Qed.

Lemma add_lookup_other e s ch :
  ch <> channel e ->
  tail_by_channel (add e s) !! ch = tail_by_channel s !! ch.
Proof. intros H. unfold add. cbn. apply lookup_insert_ne. congruence. Qed.

Lemma add_channel_list_same e s :
  channel_list (tail_by_channel (add e s)) (channel e) =
  channel_list (tail_by_channel s) (channel e) ++ [(summary_seq (add e s), e)].
Proof. unfold channel_list at 1. rewrite add_lookup_same. reflexivity. Qed.

Lemma add_channel_list_other e s ch :
  ch <> channel e ->
  channel_list (tail_by_channel (add e s)) ch = channel_list (tail_by_channel s) ch.
Proof. intros H. unfold channel_list. rewrite add_lookup_other by exact H. reflexivity. Qed.

Lemma entries_add e s :
  entries (tail_by_channel (add e s))
  ≡ₚ entries (tail_by_channel s) ++ [(summary_seq (add e s), e)].
Proof.
  unfold add. cbn. set (q := wrap64 (summary_seq s + 1)).
  unfold channel_list.
  destruct (tail_by_channel s !! channel e) as [l|] eqn:Hch; cbn.
  - rewrite entries_insert, (entries_lookup _ _ _ Hch). solve_Permutation.
  - rewrite (entries_insert_fresh _ _ _ Hch). solve_Permutation.
Qed.

Lemma retained_keys_add e s :
  retained_keys (add e s) = {[ key e ]} ∪ retained_keys s.
Proof.
  unfold retained_keys.
  rewrite (list_to_set_perm_L (C := gset LogEntryKey) _
             (entry_keys (entries (tail_by_channel s) ++ [(summary_seq (add e s), e)]))).
  - unfold entry_keys. rewrite fmap_app, list_to_set_app_L. cbn. set_solver.
  - unfold entry_keys. apply fmap_Permutation, entries_add.
Qed.

Lemma elem_of_retained_keys s k :
  k ∈ retained_keys s <->
  exists ch l p, tail_by_channel s !! ch = Some l /\ p ∈ l /\ key p.2 = k.
Proof.
  unfold retained_keys, entry_keys.
  rewrite elem_of_list_to_set, list_elem_of_fmap. split.
  - intros (p & -> & Hp). apply elem_of_entries in Hp as (ch & l & Hm & Hl). eauto 6.
  - intros (ch & l & p & Hm & Hl & <-). exists p. split; [reflexivity|].
    apply elem_of_entries. eauto.
Qed.

(** *** The membership index against the retained records *)

Lemma mirrors_new : mirrors LogSummary_new.
Proof.
  unfold mirrors, retained_keys. cbn. rewrite entries_empty. reflexivity.
Qed.

Lemma mirrors_add e s : mirrors s -> mirrors (add e s).
Proof.
  unfold mirrors. intros H. rewrite retained_keys_add. cbn. rewrite H. reflexivity.
Qed.

(** What [prune] does to the two sides. *)
Lemma prune_keys_split max s :
  exists gone : list LogEntryKey,
    entry_keys (entries (tail_by_channel s))
      ≡ₚ gone ++ entry_keys (entries (tail_by_channel (prune max s))) /\
    keys (prune max s) = keys s ∖ list_to_set gone.
Proof.
  destruct (prune_spec max s) as (_ & _ & Ht & Hk).
  exists (entry_keys (entries (drop_front max <$> tail_by_channel s))).
  split; [|exact Hk].
  rewrite Ht. unfold entry_keys. rewrite <- fmap_app.
  apply fmap_Permutation, entries_split.
Qed.

Lemma keys_subset_add e s :
  keys s ⊆ retained_keys s -> keys (add e s) ⊆ retained_keys (add e s).
Proof. intros H. rewrite retained_keys_add. cbn. set_solver. Qed.

Lemma keys_subset_prune max s :
  keys s ⊆ retained_keys s -> keys (prune max s) ⊆ retained_keys (prune max s).
Proof.
  intros H. destruct (prune_keys_split max s) as (gone & Hperm & Hk).
  unfold retained_keys in *. rewrite Hk.
  rewrite (list_to_set_perm_L (C := gset LogEntryKey) _ _ Hperm) in H.
  rewrite list_to_set_app_L in H. set_solver.
Qed.

Lemma distinct_prune max s : distinct_identities s -> distinct_identities (prune max s).
Proof.
  unfold distinct_identities. intros H.
  destruct (prune_keys_split max s) as (gone & Hperm & _).
  rewrite Hperm in H. apply NoDup_app in H. tauto.
Qed.

Lemma mirrors_prune max s :
  distinct_identities s -> mirrors s -> mirrors (prune max s).
Proof.
  unfold distinct_identities, mirrors. intros Hnd H.
  destruct (prune_keys_split max s) as (gone & Hperm & Hk).
  unfold retained_keys in *. rewrite Hk, H.
  rewrite (list_to_set_perm_L (C := gset LogEntryKey) _ _ Hperm).
  rewrite Hperm in Hnd. apply NoDup_app in Hnd as (_ & Hdisj & _).
  rewrite list_to_set_app_L.
  apply set_eq. intros k.
  rewrite elem_of_difference, elem_of_union, !elem_of_list_to_set.
  specialize (Hdisj k). tauto.
Qed.

Lemma distinct_add e s :
  mirrors s -> contains (key e) s = false ->
  distinct_identities s -> distinct_identities (add e s).
Proof.
  unfold distinct_identities, mirrors, contains. intros Hm Hc Hnd.
  apply bool_decide_eq_false in Hc. rewrite Hm in Hc.
  unfold retained_keys in Hc. rewrite elem_of_list_to_set in Hc.
  unfold entry_keys in *. rewrite (fmap_Permutation _ _ _ (entries_add e s)).
  rewrite fmap_app. apply NoDup_app. split; [exact Hnd|]. split.
  - intros k Hk Hin. cbn in Hin. apply list_elem_of_singleton in Hin. subst k. tauto.
  - cbn. apply NoDup_singleton.
Qed.

Lemma distinct_new : distinct_identities LogSummary_new.
Proof. unfold distinct_identities. cbn. rewrite entries_empty. constructor. Qed.

End Summary_facts.

Section Sequence_facts.
Context `{X : Externals}.

Implicit Types (s : LogSummary) (e : LogEntry) (l : list (Z * LogEntry)).

Lemma channel_ordered_nil bound : channel_ordered bound [].
Proof. split; constructor. Qed.

Lemma channel_ordered_snoc bound l q e :
  channel_ordered bound l -> bound < q ->
  channel_ordered q (l ++ [(q, e)]).
Proof.
  intros [Hs Hb] Hlt. split.
  - rewrite fmap_app. apply StronglySorted_app_2.
    + intros x1 x2 H1 H2. cbn in H2. apply list_elem_of_singleton in H2. subst x2.
      apply list_elem_of_fmap in H1 as (p & -> & Hp).
      rewrite Forall_forall in Hb. specialize (Hb p Hp). lia.
    + exact Hs.
    + cbn. repeat constructor.
  - apply Forall_app. split.
    + eapply Forall_impl; [exact Hb|]. cbn. intros p Hp. lia.
    + repeat constructor. cbn. lia.
Qed.

Lemma channel_ordered_weaken bound bound' l :
  channel_ordered bound l -> bound <= bound' -> channel_ordered bound' l.
Proof.
  intros [Hs Hb] Hle. split; [exact Hs|].
  eapply Forall_impl; [exact Hb|]. cbn. intros p Hp. lia.
Qed.

Lemma channel_ordered_keep_last bound max l :
  channel_ordered bound l -> channel_ordered bound (keep_last max l).
Proof.
  intros [Hs Hb]. unfold keep_last. split.
  - rewrite fmap_drop.
    rewrite <- (take_drop (length l - max) l.*1) in Hs.
    apply StronglySorted_app_1_r in Hs. exact Hs.
  - apply Forall_drop. exact Hb.
Qed.

Lemma seq_ordered_new : seq_ordered LogSummary_new.
Proof.
  split; cbn.
  - unfold uint64_mod. lia.
  - intros ch l H. rewrite lookup_empty in H. discriminate.
Qed.

(** While the counter does not wrap, [add] hands out the next integer. *)
Lemma add_seq e s :
  0 <= summary_seq s -> summary_seq s + 1 < uint64_mod ->
  summary_seq (add e s) = summary_seq s + 1.
Proof. intros H0 H1. cbn. apply wrap64_small. lia. Qed.

Lemma seq_ordered_add e s :
  seq_ordered s -> summary_seq s + 1 < uint64_mod -> seq_ordered (add e s).
Proof.
  intros [Hrange Hch] Hno.
  assert (Hq : summary_seq (add e s) = summary_seq s + 1) by (apply add_seq; lia).
  split; [rewrite Hq; lia|].
  intros ch l Hl. destruct (decide (ch = channel e)) as [->|Hne].
  - rewrite add_lookup_same in Hl. rewrite Hq in *. injection Hl as <-.
    apply channel_ordered_snoc with (bound := summary_seq s); [|lia].
    unfold channel_list.
    destruct (tail_by_channel s !! channel e) as [l0|] eqn:E; cbn.
    + apply (Hch _ _ E).
    + apply channel_ordered_nil.
  - rewrite add_lookup_other in Hl by exact Hne.
    apply channel_ordered_weaken with (bound := summary_seq s); [|lia].
    apply (Hch _ _ Hl).
Qed.

Lemma prune_seq max s : summary_seq (prune max s) = summary_seq s.
Proof. destruct (prune_spec max s) as (_ & H & _). exact H. Qed.

Lemma seq_ordered_prune max s : seq_ordered s -> seq_ordered (prune max s).
Proof.
  intros [Hrange Hch]. split; rewrite prune_seq; [exact Hrange|].
  intros ch l Hl. rewrite prune_lookup in Hl.
  destruct (tail_by_channel s !! ch) as [l0|] eqn:E; [|discriminate].
  cbn in Hl. injection Hl as <-.
  apply channel_ordered_keep_last, (Hch _ _ E).
Qed.

Lemma run_seq_ordered ops s :
  seq_ordered s -> summary_seq s + Z.of_nat (adds ops) < uint64_mod ->
  seq_ordered (run ops s) /\
  summary_seq (run ops s) = summary_seq s + Z.of_nat (adds ops).
Proof.
  revert s. induction ops as [|[e|max] ops IH]; intros s Hs Hno.
  - cbn. split; [exact Hs|lia].
  - cbn [run foldl step adds] in *.
    assert (Hq : summary_seq (add e s) = summary_seq s + 1).
    { apply add_seq; destruct Hs as [Hr _]; lia. }
    destruct (IH (add e s)) as [H1 H2].
    + apply seq_ordered_add; [exact Hs|lia].
    + lia.
    + split; [exact H1|]. unfold run in H2. lia.
  - cbn [run foldl step adds] in *.
    destruct (IH (prune max s)) as [H1 H2].
    + apply seq_ordered_prune, Hs.
    + rewrite prune_seq. exact Hno.
    + split; [exact H1|]. unfold run in H2. rewrite H2, prune_seq. reflexivity.
Qed.

(** The admissions of a history receive consecutive integers. *)
Lemma assigned_consecutive ops s :
  0 <= summary_seq s -> summary_seq s + Z.of_nat (adds ops) < uint64_mod ->
  assigned ops s = seqZ (summary_seq s + 1) (Z.of_nat (adds ops)).
Proof.
  revert s. induction ops as [|[e|max] ops IH]; intros s H0 Hno.
  - reflexivity.
  - cbn [assigned adds] in *.
    assert (Hq : summary_seq (add e s) = summary_seq s + 1) by (apply add_seq; lia).
    rewrite seqZ_cons by lia. rewrite IH by lia. rewrite Hq.
    f_equal. f_equal; lia.
  - cbn [assigned adds] in *. rewrite IH by (rewrite prune_seq; lia).
    rewrite prune_seq. reflexivity.
Qed.

Lemma seqZ_increasing m n : StronglySorted Z.lt (seqZ m n).
Proof.
  destruct (Z_le_gt_dec n 0) as [Hn|Hn].
  - rewrite seqZ_nil by exact Hn. constructor.
  - rewrite <- (Z2Nat.id n) by lia. generalize (Z.to_nat n) as k. clear Hn.
    intros k. revert m. induction k as [|k IH]; intros m.
    + cbn. constructor.
    + rewrite seqZ_cons by lia. constructor.
      * replace (Z.pred (Z.of_nat (S k))) with (Z.of_nat k) by lia. apply IH.
      * apply Forall_seqZ. intros j Hj. lia.
Qed.

Lemma reachable_run ops s : reachable s -> reachable (run ops s).
Proof.
  revert s. induction ops as [|[e|max] ops IH]; intros s Hs; [exact Hs| |].
  - apply IH, reachable_add, Hs.
  - apply IH, reachable_prune, Hs.
Qed.

Lemma adds_replicate n e : adds (replicate n (Add e)) = n.
Proof. induction n as [|n IH]; [reflexivity|]. cbn. rewrite IH. reflexivity. Qed.

(** Two admissions across the wrap of the counter. *)
Lemma assigned_across_wrap e1 e2 s :
  summary_seq s = uint64_mod - 2 ->
  assigned [Add e1; Add e2] s = [uint64_mod - 1; 0].
Proof.
  intros H. cbn [assigned]. unfold add at 1 3. cbn [summary_seq].
  unfold add. cbn [summary_seq]. rewrite H. reflexivity.
Qed.

End Sequence_facts.

Section Merge_facts.
Context `{X : Externals}.

Implicit Types (s : LogSummary) (l : list (Z * LogEntry)).
Implicit Types (ls : list (list (Z * LogEntry))).








Lemma total_length_entries s : total_length s = length (entries (tail_by_channel s)).
Proof.
  unfold total_length.
  induction (tail_by_channel s) as [|ch l m Hfresh Hfirst IH] using map_first_key_ind.
  - rewrite map_fold_empty, entries_empty. reflexivity.
  - rewrite map_fold_insert_first_key by assumption.
    rewrite entries_length_insert_fresh by assumption. rewrite IH. reflexivity.
Qed.

Lemma channel_ordered_seq_le bound l :
  channel_ordered bound l -> StronglySorted seq_le l.
Proof.
  intros [Hs _]. induction l as [|p l IH]; [constructor|].
  cbn in Hs. apply StronglySorted_cons in Hs as [Hp Hl].
  constructor; [apply IH, Hl|].
  rewrite Forall_forall in Hp. apply Forall_forall. intros q Hq.
  unfold seq_le. specialize (Hp q.1 (list_elem_of_fmap_2 fst _ _ Hq)). lia.
Qed.

End Merge_facts.

(** * The claims *)

Section Claims.
Context `{X : Externals}.

Implicit Types (s : LogSummary) (e : LogEntry) (l : list (Z * LogEntry)).

(** C2. Admission implies membership: right after [s.add(e)], and before
    any [prune], [s.contains(e.key())] is true, for every record [e] and
    every summary [s]. *)
Theorem add_then_contains e s : contains (key e) (add e s) = true.
Proof.
  unfold contains. apply bool_decide_eq_true. cbn. set_solver.
Qed.

(** On keys built from their three fields by [LogEntryKey(w, t, s)] - the
    way [LogEntry::key] builds every key that enters the set - the hash is
    [seq + h(rank)] modulo [2^64], a function of the fields, and keys that
    compare equal hash equal. *)
Theorem hash_consistent_on_built_keys w1 t1 q1 w2 t2 q2 :
  key_eqb (LogEntryKey_new w1 t1 q1) (LogEntryKey_new w2 t2 q2) = true ->
  get_hash (LogEntryKey_new w1 t1 q1) = wrap64 (q1 + hash_entity_name_t w1) /\
  get_hash (LogEntryKey_new w1 t1 q1) = get_hash (LogEntryKey_new w2 t2 q2).
Proof.
  intros H. apply key_eqb_true in H as (Hr & _ & Hs). cbn in Hr, Hs. subst.
  split; reflexivity.
Qed.

(** On keys built by [LogEntryKey(w, t, s)] the hash ignores the time
    stamp: two such keys with the same rank and the same sequence number
    but different stamps are unequal and have the same hash,
    [seq + h(rank)] modulo [2^64]. *)
Theorem hash_ignores_stamp w q t1 t2 :
  t1 <> t2 ->
  key_eqb (LogEntryKey_new w t1 q) (LogEntryKey_new w t2 q) = false /\
  get_hash (LogEntryKey_new w t1 q) = get_hash (LogEntryKey_new w t2 q) /\
  get_hash (LogEntryKey_new w t1 q) = wrap64 (q + hash_entity_name_t w).
Proof.
  intros Hne. split; [|split; reflexivity].
  apply not_true_is_false. intros H.
  apply key_eqb_true in H as (_ & Ht & _). cbn in Ht. contradiction.
Qed.

(** C6, at the failing input. [LogEntryKey()] does not run [_calc_hash],
    which the other constructor runs: the default key and the key built
    from the default rank, the default stamp and 0 compare equal, the first
    has the hash 0 and the second the hash of the default rank, so the two
    hashes agree only when that hash is a multiple of [2^64].  A summary
    that has admitted a record with this identity then answers the
    membership test for the default key by the same condition. *)
Theorem default_key_hash_inconsistent :
  constructed LogEntryKey_default /\
  constructed (LogEntryKey_new entity_name_t_default utime_t_default 0) /\
  key_eqb LogEntryKey_default
          (LogEntryKey_new entity_name_t_default utime_t_default 0) = true /\
  get_hash LogEntryKey_default = 0 /\
  get_hash (LogEntryKey_new entity_name_t_default utime_t_default 0)
    = wrap64 (hash_entity_name_t entity_name_t_default) /\
  (get_hash LogEntryKey_default
     = get_hash (LogEntryKey_new entity_name_t_default utime_t_default 0)
   <-> wrap64 (hash_entity_name_t entity_name_t_default) = 0) /\
  (forall e,
     rank e = entity_name_t_default -> stamp e = utime_t_default -> seq e = 0 ->
     key_eqb LogEntryKey_default (key e) = true /\
     (contains LogEntryKey_default (add e LogSummary_new) = true
      <-> wrap64 (hash_entity_name_t entity_name_t_default) = 0)).
Proof.
  split; [apply constructed_default|]. split; [apply constructed_new|].
  split; [apply key_eqb_true; cbn; auto|]. split; [reflexivity|].
  split; [rewrite get_hash_new, Z.add_0_l; reflexivity|]. split.
  - rewrite get_hash_default, get_hash_new, Z.add_0_l. split; congruence.
  - intros e Hr Ht Hq. split.
    + apply key_eqb_true. unfold key. cbn. auto.
    + unfold contains. rewrite bool_decide_eq_true. cbn [add keys LogSummary_new].
      rewrite elem_of_union, elem_of_singleton, elem_of_empty.
      unfold key, LogEntryKey_default, LogEntryKey_new, _calc_hash. cbn.
      rewrite Hr, Ht, Hq, Z.add_0_l. split.
      * intros [H|[]]. injection H as H. congruence.
      * intros H. left. rewrite H. reflexivity.
Qed.

(** C10, at the failing input.  The default key and a key built from the
    default rank, another stamp and 0 have the same rank and sequence
    number and different stamps, and are unequal; the built key has the
    hash [seq + h(rank)] modulo [2^64], the default key has the hash 0,
    whatever [h] is: the two hashes agree only when the hash of the default
    rank is a multiple of [2^64]. *)
Theorem default_key_hash_not_from_fields (t : utime_t) :
  t <> utime_t_default ->
  key_rank LogEntryKey_default = key_rank (LogEntryKey_new entity_name_t_default t 0) /\
  key_seq LogEntryKey_default = key_seq (LogEntryKey_new entity_name_t_default t 0) /\
  key_stamp LogEntryKey_default <> key_stamp (LogEntryKey_new entity_name_t_default t 0) /\
  key_eqb LogEntryKey_default (LogEntryKey_new entity_name_t_default t 0) = false /\
  get_hash (LogEntryKey_new entity_name_t_default t 0)
    = wrap64 (0 + hash_entity_name_t entity_name_t_default) /\
  get_hash LogEntryKey_default = 0 /\
  (get_hash LogEntryKey_default
     = get_hash (LogEntryKey_new entity_name_t_default t 0)
   <-> wrap64 (hash_entity_name_t entity_name_t_default) = 0).
Proof.
  intros Hne. split; [reflexivity|]. split; [reflexivity|].
  split; [cbn; congruence|]. split.
  - apply not_true_is_false. intros H.
    apply key_eqb_true in H as (_ & Ht & _). cbn in Ht. congruence.
  - split; [reflexivity|]. split; [reflexivity|].
    rewrite get_hash_default, get_hash_new, Z.add_0_l. split; congruence.
Qed.

End Claims.

Section Severity_claims.

Lemma ascii_lower_idem c : ascii_lower (ascii_lower c) = ascii_lower c.
Proof. destruct c as [[] [] [] [] [] [] [] []]; reflexivity. Qed.

Lemma lowercase_idem str : lowercase (lowercase str) = lowercase str.
Proof.
  induction str as [|c str IH]; [reflexivity|].
  cbn. rewrite ascii_lower_idem, IH. reflexivity.
Qed.

Lemma iequals_lowercase_l a b : iequals (lowercase a) b = iequals a b.
Proof. unfold iequals. rewrite lowercase_idem. reflexivity. Qed.

Lemma elem_of_all_ascii c : c ∈ all_ascii.
Proof.
  unfold all_ascii. apply list_elem_of_fmap. exists (nat_of_ascii c).
  split; [symmetry; apply ascii_nat_embedding|].
  apply list_elem_of_In, in_seq. pose proof (nat_ascii_bounded c). lia.
Qed.

Lemma same_letterb_table :
  forallb (fun c => forallb (fun d =>
    Bool.eqb (Ascii.eqb (ascii_lower c) (ascii_lower d)) (same_letterb c d))
    all_ascii) all_ascii = true.
Proof. vm_compute. reflexivity. Qed.

Lemma same_letterb_true c d : same_letterb c d = true <-> same_letter c d.
Proof.
  unfold same_letterb, same_letter, is_upper.
  rewrite !orb_true_iff, !andb_true_iff, Ascii.eqb_eq,
    !Nat.leb_le, !Nat.eqb_eq. tauto.
Qed.

Lemma ascii_lower_eq c d : ascii_lower c = ascii_lower d <-> same_letter c d.
Proof.
  rewrite <- same_letterb_true, <- Ascii.eqb_eq.
  pose proof same_letterb_table as H.
  rewrite forallb_forall in H.
  specialize (H c (proj1 (list_elem_of_In _ _) (elem_of_all_ascii c))).
  rewrite forallb_forall in H.
  specialize (H d (proj1 (list_elem_of_In _ _) (elem_of_all_ascii d))).
  apply Bool.eqb_prop in H. rewrite H. reflexivity.
Qed.

Lemma lowercase_eq a b : lowercase a = lowercase b <-> same_text a b.
Proof.
  revert b. induction a as [|c a IH]; intros [|d b]; cbn.
  - split; [constructor|reflexivity].
  - split; [discriminate|inversion 1].
  - split; [discriminate|inversion 1].
  - split.
    + intros [= Hc Ha]. constructor; [apply ascii_lower_eq, Hc|apply IH, Ha].
    + inversion 1 as [|? ? ? ? Hc Ha]; subst.
      apply ascii_lower_eq in Hc. apply IH in Ha. congruence.
Qed.

Lemma iequals_true a b : iequals a b = true <-> same_text a b.
Proof. unfold iequals. rewrite bool_decide_eq_true. apply lowercase_eq. Qed.

Lemma str_to_level_first_match (names : list (string * clog_type)) str t :
  str_to_level names str = t <->
  (exists before n after,
     names = before ++ (n, t) :: after /\ same_text str n /\
     forall n' t', (n', t') ∈ before -> ~ same_text str n') \/
  (t = CLOG_UNKNOWN /\ forall n' t', (n', t') ∈ names -> ~ same_text str n').
Proof.
  induction names as [|[n0 t0] names IH].
  - cbn. split.
    + intros <-. right. split; [reflexivity|]. intros n' t' H. inversion H.
    + intros [(before & n & after & Hn & _)|[-> _]]; [|reflexivity].
      destruct before; discriminate.
  - cbn [str_to_level]. destruct (iequals str n0) eqn:E.
    + apply iequals_true in E. split.
      * intros <-. left. exists [], n0, names. repeat split; [exact E|].
        intros n' t' H. inversion H.
      * intros [(before & n & after & Hn & Hm & Hfirst)|[_ Hnone]].
        -- destruct before as [|b before]; cbn in Hn.
           ++ congruence.
           ++ injection Hn as <- _. exfalso.
              apply (Hfirst n0 t0); [left|exact E].
        -- exfalso. apply (Hnone n0 t0); [left|exact E].
    + assert (Hno : ~ same_text str n0).
      { intros H. apply iequals_true in H. congruence. }
      rewrite IH. split.
      * intros [(before & n & after & Hn & Hm & Hfirst)|[-> Hnone]].
        -- left. exists ((n0, t0) :: before), n, after. rewrite Hn.
           repeat split; [exact Hm|].
           intros n' t' Hin. apply elem_of_cons in Hin as [[= -> ->]|Hin];
             [exact Hno|apply (Hfirst _ _ Hin)].
        -- right. split; [reflexivity|].
           intros n' t' Hin. apply elem_of_cons in Hin as [[= -> ->]|Hin];
             [exact Hno|apply (Hnone _ _ Hin)].
      * intros [(before & n & after & Hn & Hm & Hfirst)|[-> Hnone]].
        -- destruct before as [|b before]; cbn in Hn.
           ++ injection Hn as -> _ _. contradiction.
           ++ injection Hn as _ ->. left. exists before, n, after.
              repeat split; [exact Hm|].
              intros n' t' Hin. apply (Hfirst n' t'). right. exact Hin.
        -- right. split; [reflexivity|].
           intros n' t' Hin. apply (Hnone n' t'). right. exact Hin.
Qed.

(** C8. Parsing a severity is total with a sentinel: for every table of
    names and every text, the parser returns a severity, and it returns [t]
    exactly when [t] is the severity of the first entry whose name is the
    text up to the case of its ASCII letters, or when no entry's name is and
    [t] is [CLOG_UNKNOWN].  So a text matching an entry gets that entry's
    severity whatever its case, a text matching none gets [CLOG_UNKNOWN],
    and the result does not depend on the case of the text. *)
Theorem str_to_level_total (names : list (string * clog_type)) (str : string) :
  (forall t,
     str_to_level names str = t <->
     (exists before n after,
        names = before ++ (n, t) :: after /\ same_text str n /\
        forall n' t', (n', t') ∈ before -> ~ same_text str n') \/
     (t = CLOG_UNKNOWN /\
      forall n' t', (n', t') ∈ names -> ~ same_text str n')) /\
  ((exists n t, (n, t) ∈ names /\ iequals str n = true /\
                str_to_level names str = t) \/
   ((forall n t, (n, t) ∈ names -> iequals str n = false) /\
    str_to_level names str = CLOG_UNKNOWN)) /\
  str_to_level names (lowercase str) = str_to_level names str.
Proof.
  split; [intros t; apply str_to_level_first_match|].
  split.
  - induction names as [|[n t] names IH].
    + right. split; [|reflexivity]. intros n t H. inversion H.
    + cbn [str_to_level]. destruct (iequals str n) eqn:E.
      * left. exists n, t. repeat split; [left|exact E].
      * destruct IH as [(n' & t' & Hin & Hm & Hr)|[Hnone Hr]].
        -- left. exists n', t'. repeat split; [right; exact Hin|exact Hm|exact Hr].
        -- right. split; [|exact Hr]. intros n' t' Hin.
           apply elem_of_cons in Hin as [[= -> ->]|Hin]; [exact E|].
           apply (Hnone _ _ Hin).
  - induction names as [|[n t] names IH]; [reflexivity|].
    cbn [str_to_level]. rewrite iequals_lowercase_l, IH. reflexivity.
Qed.

End Severity_claims.

Section Admission_facts.
Context `{X : Externals}.

Implicit Types (s : LogSummary) (e : LogEntry) (es : list LogEntry).

Lemma add_prefix e s ch :
  channel_list (tail_by_channel s) ch
    `prefix_of` channel_list (tail_by_channel (add e s)) ch.
Proof.
  destruct (decide (ch = channel e)) as [->|Hne].
  - rewrite add_channel_list_same. apply prefix_app_r. reflexivity.
  - rewrite add_channel_list_other by exact Hne. reflexivity.
Qed.

Lemma add_all_prefix es s ch :
  channel_list (tail_by_channel s) ch
    `prefix_of` channel_list (tail_by_channel (add_all es s)) ch.
Proof.
  revert s. induction es as [|e es IH]; intros s; [reflexivity|].
  cbn. etransitivity; [apply add_prefix|apply IH].
Qed.

Lemma add_all_keys es s : keys s ⊆ keys (add_all es s).
Proof.
  revert s. induction es as [|e es IH]; intros s; [reflexivity|].
  cbn [add_all foldl]. etransitivity; [|apply IH]. cbn. set_solver.
Qed.

Lemma add_entries_length e s :
  length (entries (tail_by_channel (add e s)))
  = S (length (entries (tail_by_channel s))).
Proof. rewrite entries_add, length_app. cbn. lia. Qed.

Lemma add_all_entries_length es s :
  length (entries (tail_by_channel (add_all es s)))
  = (length (entries (tail_by_channel s)) + length es)%nat.
Proof.
  revert s. induction es as [|e es IH]; intros s; [cbn; lia|].
  cbn [add_all foldl]. unfold add_all in IH. rewrite IH, add_entries_length.
  cbn. lia.
Qed.

End Admission_facts.

Section Summary_claims.
Context `{X : Externals}.

Implicit Types (s : LogSummary) (e : LogEntry) (l : list (Z * LogEntry)).

(** C1, as amended. In every state reached from the empty summary by [add]
    and [prune], each member of [keys] is the identity of a retained record.
    When every [add] is guarded by [contains], no two retained records share
    an identity and [keys] is exactly the set of identities of the retained
    records.  [add] keeps the equality in any state; [prune] keeps it when
    no two retained records share an identity. *)
Theorem keys_mirror_retained s :
  (reachable s -> keys s ⊆ retained_keys s) /\
  (reachable_dedup s -> keys s = retained_keys s /\ distinct_identities s) /\
  (forall e, keys s = retained_keys s ->
             keys (add e s) = retained_keys (add e s)) /\
  (forall max, distinct_identities s -> keys s = retained_keys s ->
               keys (prune max s) = retained_keys (prune max s)).
Proof.
  split; [|split; [|split]].
  - induction 1 as [|e s Hs IH|max s Hs IH].
    + cbn. set_solver.
    + apply keys_subset_add, IH.
    + apply keys_subset_prune, IH.
  - induction 1 as [|e s Hs [IHm IHd] Hc|max s Hs [IHm IHd]].
    + split; [apply mirrors_new|apply distinct_new].
    + split; [apply mirrors_add, IHm|apply distinct_add; assumption].
    + split; [apply mirrors_prune; assumption|apply distinct_prune, IHd].
  - intros e. apply mirrors_add.
  - intros max. apply mirrors_prune.
Qed.

(** C3. After [prune(max)] every channel has at most [max] entries: a
    channel keeps the last [max] entries of its list, in their order, and
    nothing else, and [prune] creates no channel.  The list of a channel is
    in admission order, since [add] appends to the list of the record's
    channel and leaves the other channels alone. *)
Theorem prune_keeps_last max s :
  (forall ch l, tail_by_channel (prune max s) !! ch = Some l ->
                (length l <= max)%nat) /\
  (forall ch l, tail_by_channel s !! ch = Some l ->
                tail_by_channel (prune max s) !! ch
                  = Some (drop (length l - max) l) /\
                ((max < length l)%nat ->
                 length (drop (length l - max) l) = max)) /\
  (forall ch, tail_by_channel s !! ch = None ->
              tail_by_channel (prune max s) !! ch = None) /\
  (forall e ch,
     channel_list (tail_by_channel (add e s)) ch =
     if decide (ch = channel e)
     then channel_list (tail_by_channel s) ch ++ [(summary_seq (add e s), e)]
     else channel_list (tail_by_channel s) ch).
Proof.
  split; [|split; [|split]].
  - intros ch l H. rewrite prune_lookup in H.
    destruct (tail_by_channel s !! ch) as [l0|]; [|discriminate].
    cbn in H. injection H as <-. apply keep_last_length.
  - intros ch l H. rewrite prune_lookup, H. split; [reflexivity|].
    intros Hlt. rewrite length_drop. lia.
  - intros ch H. rewrite prune_lookup, H. reflexivity.
  - intros e ch. case_decide as Hch.
    + subst ch. apply add_channel_list_same.
    + apply add_channel_list_other, Hch.
Qed.

(** C4, as amended. As long as the 64-bit counter does not wrap, sequence
    numbers are handed out in strictly increasing order: from a state whose
    channels are in order (the empty summary is one), the admissions of any
    history of [add] and [prune] calls receive consecutive, hence strictly
    increasing, numbers, whatever their channels; in the resulting state
    every channel's list is strictly increasing in its assigned numbers; and
    [prune] only removes from the front of a channel (what it leaves is a
    suffix of the list). *)
Theorem seq_strictly_increasing ops s :
  seq_ordered s ->
  summary_seq s + Z.of_nat (adds ops) < uint64_mod ->
  assigned ops s = seqZ (summary_seq s + 1) (Z.of_nat (adds ops)) /\
  StronglySorted Z.lt (assigned ops s) /\
  (forall ch l, tail_by_channel (run ops s) !! ch = Some l ->
                StronglySorted Z.lt l.*1) /\
  (forall max ch l, tail_by_channel (run ops s) !! ch = Some l ->
     exists l', tail_by_channel (prune max (run ops s)) !! ch = Some l' /\
                l' `suffix_of` l).
Proof.
  intros Hs Hno.
  assert (Ha : assigned ops s = seqZ (summary_seq s + 1) (Z.of_nat (adds ops))).
  { apply assigned_consecutive; [destruct Hs as [Hr _]; lia|exact Hno]. }
  split; [exact Ha|]. split; [rewrite Ha; apply seqZ_increasing|].
  destruct (run_seq_ordered ops s Hs Hno) as [[_ Hch] _].
  split.
  - intros ch l Hl. destruct (Hch _ _ Hl) as [Hsorted _]. exact Hsorted.
  - intros max ch l Hl. exists (keep_last max l). split.
    + rewrite prune_lookup, Hl. reflexivity.
    + apply keep_last_suffix.
Qed.



(** C7. [add] never rejects a record: when two records with the same
    identity are admitted, with any admissions in between, both are in the
    list of their channel afterwards, nothing that was stored is dropped or
    replaced (each earlier list is a prefix of the later one and the number
    of stored entries grows by one per admission), and the identity is in
    [keys] once: the second admission leaves [keys] as it was. *)
Theorem add_keeps_duplicates s e1 (es : list LogEntry) e2 :
  key e1 = key e2 ->
  let s1 := add e1 s in
  let s' := add_all es s1 in
  let s2 := add e2 s' in
  (summary_seq s1, e1) ∈ channel_list (tail_by_channel s2) (channel e1) /\
  (summary_seq s2, e2) ∈ channel_list (tail_by_channel s2) (channel e2) /\
  (forall ch, channel_list (tail_by_channel s) ch
                `prefix_of` channel_list (tail_by_channel s2) ch) /\
  length (entries (tail_by_channel s2))
    = (length (entries (tail_by_channel s)) + length es + 2)%nat /\
  keys s2 = keys s' /\
  key e1 ∈ keys s2 /\
  NoDup (elements (keys s2)).
Proof.
  intros Hkey s1 s' s2.
  assert (Hin1 : key e1 ∈ keys s').
  { apply (add_all_keys es s1). cbn. set_solver. }
  split; [|split; [|split; [|split; [|split; [|split]]]]].
  - assert (Hp : channel_list (tail_by_channel s1) (channel e1)
                   `prefix_of` channel_list (tail_by_channel s2) (channel e1)).
    { etransitivity; [apply (add_all_prefix es)|apply add_prefix]. }
    destruct Hp as [k Hk]. rewrite Hk. subst s1.
    rewrite add_channel_list_same. set_solver.
  - subst s2. rewrite add_channel_list_same. set_solver.
  - intros ch. etransitivity; [apply add_prefix|].
    etransitivity; [apply (add_all_prefix es)|apply add_prefix].
  - subst s2 s' s1.
    rewrite add_entries_length, add_all_entries_length, add_entries_length. lia.
  - subst s2. cbn. rewrite <- Hkey. set_solver.
  - subst s2. cbn. set_solver.
  - apply NoDup_elements.
Qed.

End Summary_claims.

Section Wrapped_merge.
Context `{X : Externals}.

Implicit Types (s : LogSummary) (e : LogEntry) (l : list (Z * LogEntry)).






End Wrapped_merge.

(** * Examples on the sample instance *)

Section Examples.
Import Sample.


(** C1, counterexample. [rec_x] goes to the cluster channel, a record with
    the same identity to the audit channel, [rec_z] to the cluster channel;
    [prune(1)] pops [rec_x] and erases its identity, yet the audit channel
    still holds the double: [keys] has lost the identity of a retained
    record. *)
Lemma keys_mirror_counterexample :
  reachable collided /\
  tail_by_channel collided !! CLOG_CHANNEL_AUDIT = Some [(2, rec_x_audit)] /\
  contains (key rec_x_audit) collided = false /\
  keys collided <> retained_keys collided.
Proof.
  split; [unfold collided; apply reachable_prune; repeat apply reachable_add; apply reachable_new|].
  split; [vm_compute; reflexivity|].
  split; [vm_compute; reflexivity|].
  intros H.
  assert (Hin : bool_decide (key rec_x_audit ∈ retained_keys collided) = true)
    by (vm_compute; reflexivity).
  rewrite <- H in Hin. vm_compute in Hin. discriminate.
Qed.

(** C1, witness: three distinct records, each admitted after a negative
    membership test, then [prune(1)]. *)
Lemma keys_mirror_retained_witness :
  reachable deduplicated /\ reachable_dedup deduplicated /\
  keys deduplicated ⊆ retained_keys deduplicated /\
  keys deduplicated = retained_keys deduplicated.
Proof.
  assert (Hr : reachable deduplicated).
  { unfold deduplicated. apply reachable_prune. repeat apply reachable_add.
    apply reachable_new. }
  assert (Hd : reachable_dedup deduplicated).
  { unfold deduplicated. apply reachable_dedup_prune.
    repeat (apply reachable_dedup_add; [|vm_compute; reflexivity]).
    apply reachable_dedup_new. }
  destruct (keys_mirror_retained deduplicated) as (Hsub & Heq & _).
  split; [exact Hr|]. split; [exact Hd|].
  split; [exact (Hsub Hr)|exact (proj1 (Heq Hd))].
Defined.

(** C3, witness: the cluster channel holds [rec_x] then [rec_z]; a cap of
    one entry leaves [rec_z]. *)
Lemma prune_keeps_last_witness :
  tail_by_channel (add_all [rec_x; rec_y; rec_z] LogSummary_new) !! CLOG_CHANNEL_CLUSTER
    = Some [(1, rec_x); (3, rec_z)] /\
  tail_by_channel (prune 1 (add_all [rec_x; rec_y; rec_z] LogSummary_new))
    !! CLOG_CHANNEL_CLUSTER = Some [(3, rec_z)].
Proof.
  assert (Hl : tail_by_channel (add_all [rec_x; rec_y; rec_z] LogSummary_new)
                 !! CLOG_CHANNEL_CLUSTER = Some [(1, rec_x); (3, rec_z)])
    by (vm_compute; reflexivity).
  split; [exact Hl|].
  destruct (prune_keeps_last 1 (add_all [rec_x; rec_y; rec_z] LogSummary_new))
    as (_ & Hkeep & _).
  exact (proj1 (Hkeep _ _ Hl)).
Defined.

(** C4, witness: three admissions with a [prune] in between receive 1, 2
    and 3. *)
Lemma seq_strictly_increasing_witness :
  seq_ordered LogSummary_new /\
  assigned [Add rec_x; Add rec_y; Prune 1; Add rec_z] LogSummary_new = [1; 2; 3] /\
  StronglySorted Z.lt (assigned [Add rec_x; Add rec_y; Prune 1; Add rec_z] LogSummary_new).
Proof.
  assert (Hno : summary_seq LogSummary_new
                + Z.of_nat (adds [Add rec_x; Add rec_y; Prune 1; Add rec_z])
                < uint64_mod) by (vm_compute; reflexivity).
  destruct (seq_strictly_increasing _ _ seq_ordered_new Hno) as (Ha & Hs & _).
  split; [apply seq_ordered_new|]. split; [exact Ha|exact Hs].
Defined.

(** C4, counterexample. After [2^64 - 2] admissions the counter stands at
    [2^64 - 2]; the next admission receives [2^64 - 1] and the one after it
    receives [0]: the later admission has the smaller number. *)
Lemma seq_wraps_counterexample :
  let s := run (replicate (Z.to_nat (uint64_mod - 2)) (Add rec_x)) LogSummary_new in
  reachable s /\
  assigned [Add rec_y; Add rec_z] s = [uint64_mod - 1; 0] /\
  ~ StronglySorted Z.lt (assigned [Add rec_y; Add rec_z] s).
Proof.
  intros s.
  assert (Hseq : summary_seq s = uint64_mod - 2).
  { destruct (run_seq_ordered
                (replicate (Z.to_nat (uint64_mod - 2)) (Add rec_x))
                LogSummary_new seq_ordered_new) as [_ Hq].
    - rewrite adds_replicate, Z2Nat.id by (unfold uint64_mod; lia).
      change (summary_seq LogSummary_new) with 0. lia.
    - subst s. rewrite Hq, adds_replicate, Z2Nat.id by (unfold uint64_mod; lia).
      change (summary_seq LogSummary_new) with 0. lia. }
  assert (Ha : assigned [Add rec_y; Add rec_z] s = [uint64_mod - 1; 0])
    by (apply assigned_across_wrap, Hseq).
  split; [apply reachable_run, reachable_new|]. split; [exact Ha|].
  rewrite Ha. intros Hs. apply StronglySorted_cons in Hs as [Hlt _].
  apply Forall_cons in Hlt as [Hlt _]. unfold uint64_mod in Hlt. lia.
Qed.



(** On the sample instance: the default key and the key built from the
    default fields compare equal; the first carries the hash 0, the second
    the hash of the default entity name, which is 1 there. *)
Lemma hash_consistency_counterexample :
  constructed LogEntryKey_default /\
  constructed (LogEntryKey_new 0 0 0) /\
  key_eqb LogEntryKey_default (LogEntryKey_new 0 0 0) = true /\
  get_hash LogEntryKey_default = 0 /\
  get_hash (LogEntryKey_new 0 0 0) = 1 /\
  get_hash LogEntryKey_default <> get_hash (LogEntryKey_new 0 0 0).
Proof.
  split; [apply constructed_default|].
  split; [exact (@constructed_new externals 0 0 0)|].
  split; [reflexivity|]. split; [reflexivity|]. split; [reflexivity|].
  apply (@default_key_hash_mismatch externals). discriminate.
Qed.

(** Two keys built from the same fields. *)
Lemma hash_consistent_on_built_keys_witness :
  key_eqb (LogEntryKey_new 7 100 1) (LogEntryKey_new 7 100 1) = true /\
  get_hash (LogEntryKey_new 7 100 1) = 9.
Proof.
  assert (He : key_eqb (LogEntryKey_new 7 100 1) (LogEntryKey_new 7 100 1) = true)
    by reflexivity.
  split; [exact He|].
  exact (proj1 (@hash_consistent_on_built_keys externals 7 100 1 7 100 1 He)).
Defined.

(** C7, witness: [rec_x], then [rec_y], then the double of [rec_x] in the
    audit channel. *)
Lemma add_keeps_duplicates_witness :
  key rec_x = key rec_x_audit /\
  (1, rec_x) ∈ channel_list
    (tail_by_channel (add rec_x_audit (add_all [rec_y] (add rec_x LogSummary_new))))
    CLOG_CHANNEL_CLUSTER /\
  (3, rec_x_audit) ∈ channel_list
    (tail_by_channel (add rec_x_audit (add_all [rec_y] (add rec_x LogSummary_new))))
    CLOG_CHANNEL_AUDIT.
Proof.
  assert (Hk : key rec_x = key rec_x_audit) by reflexivity.
  destruct (add_keeps_duplicates LogSummary_new rec_x [rec_y] rec_x_audit Hk)
    as (H1 & H2 & _).
  split; [exact Hk|]. split; [exact H1|exact H2].
Defined.

(** Same rank and sequence number, stamps 100 and 101. *)
Lemma hash_ignores_stamp_witness :
  key_eqb (LogEntryKey_new 7 100 1) (LogEntryKey_new 7 101 1) = false /\
  get_hash (LogEntryKey_new 7 100 1) = get_hash (LogEntryKey_new 7 101 1).
Proof.
  assert (Hne : (100 : utime_t) <> 101) by discriminate.
  destruct (@hash_ignores_stamp externals 7 1 100 101 Hne) as (H1 & H2 & _).
  split; [exact H1|exact H2].
Defined.

(** The parser on the sample table. *)
Example str_to_level_sample :
  str_to_level names "WARN" = CLOG_WARN /\
  str_to_level names "Error" = CLOG_ERROR /\
  str_to_level names "warning" = CLOG_UNKNOWN /\
  str_to_level names "" = CLOG_UNKNOWN.
Proof. vm_compute. repeat split. Qed.

End Examples.

(** * Further properties of the header *)

Section More_key_properties.
Context `{X : Externals}.

(** X1. [operator==] on keys is an equivalence, whatever the cached hashes
    are: it is reflexive, symmetric and transitive on all keys, the
    default-constructed one included. *)
Theorem key_eqb_equivalence (a b c : LogEntryKey) :
  key_eqb a a = true /\
  key_eqb a b = key_eqb b a /\
  (key_eqb a b = true -> key_eqb b c = true -> key_eqb a c = true).
Proof.
  split; [|split].
  - apply key_eqb_true. auto.
  - destruct (key_eqb a b) eqn:Eab, (key_eqb b a) eqn:Eba; try reflexivity.
    + apply key_eqb_true in Eab as (H1 & H2 & H3).
      assert (Hba : key_eqb b a = true) by (apply key_eqb_true; auto).
      congruence.
    + apply key_eqb_true in Eba as (H1 & H2 & H3).
      assert (Hab : key_eqb a b = true) by (apply key_eqb_true; auto).
      congruence.
  - intros Hab Hbc. apply key_eqb_true in Hab as (H1 & H2 & H3).
    apply key_eqb_true in Hbc as (H4 & H5 & H6).
    apply key_eqb_true. repeat split; congruence.
Qed.

(** X2. The identity of a record is made of its rank, stamp and sequence
    number only: two records have equal keys (as objects, and under
    [operator==]) exactly when these three fields agree, whatever their
    name, addresses, priority, message and channel; and then
    [std::hash<LogEntryKey>] gives them the same value, below [2^64]. *)
Theorem key_depends_on_rank_stamp_seq (e1 e2 : LogEntry) :
  (key e1 = key e2 <->
   rank e1 = rank e2 /\ stamp e1 = stamp e2 /\ seq e1 = seq e2) /\
  (key_eqb (key e1) (key e2) = true <-> key e1 = key e2) /\
  (key e1 = key e2 ->
   hash_LogEntryKey (key e1) = hash_LogEntryKey (key e2)) /\
  0 <= hash_LogEntryKey (key e1) < uint64_mod.
Proof.
  split; [|split; [|split]].
  - unfold key. rewrite <- key_eqb_new_eq, key_eqb_true. reflexivity.
  - unfold key. apply key_eqb_new_eq.
  - intros H. rewrite H. reflexivity.
  - unfold hash_LogEntryKey, key. rewrite get_hash_new. apply wrap64_range.
Qed.

End More_key_properties.

Section More_membership.
Context `{X : Externals}.

Implicit Types (s : LogSummary) (e : LogEntry) (l : list (Z * LogEntry)).
Implicit Types (k : LogEntryKey).

(** X3. After any number of [add] calls a key is a member exactly when it was
    a member before or is the key of one of the admitted records: [add]
    inserts the identity of its record and never removes one. *)
Theorem contains_add_all k (es : list LogEntry) s :
  contains k (add_all es s) = true <->
  contains k s = true \/ exists e, e ∈ es /\ k = key e.
Proof.
  unfold contains. rewrite !bool_decide_eq_true.
  revert s. induction es as [|e es IH]; intros s.
  - cbn. split; [auto|]. intros [H|(e & He & _)]; [exact H|inversion He].
  - cbn [add_all foldl]. unfold add_all in IH. rewrite IH. cbn [add keys].
    rewrite elem_of_union, elem_of_singleton. split.
    + intros [[->|H]|(e' & He' & ->)].
      * right. exists e. split; [left|reflexivity].
      * left. exact H.
      * right. exists e'. split; [right; exact He'|reflexivity].
    + intros [H|(e' & He' & ->)].
      * left. right. exact H.
      * apply elem_of_cons in He' as [->|He'].
        -- left. left. reflexivity.
        -- right. exists e'. split; [exact He'|reflexivity].
Qed.

Lemma elem_of_popped max s p :
  p ∈ popped max s <->
  exists ch l, tail_by_channel s !! ch = Some l /\ p ∈ drop_front max l.
Proof.
  unfold popped. rewrite elem_of_entries. split.
  - intros (ch & l' & Hl & Hp). rewrite lookup_fmap in Hl.
    destruct (tail_by_channel s !! ch) as [l|] eqn:E; [|discriminate].
    cbn in Hl. injection Hl as <-. eauto.
  - intros (ch & l & Hl & Hp). exists ch, (drop_front max l).
    split; [|exact Hp]. rewrite lookup_fmap, Hl. reflexivity.
Qed.

Lemma elem_of_keys_prune k max s :
  k ∈ keys (prune max s) <->
  k ∈ keys s /\
  forall ch l p, tail_by_channel s !! ch = Some l ->
                 p ∈ drop_front max l -> key p.2 <> k.
Proof.
  destruct (prune_spec max s) as (_ & _ & _ & Hk). rewrite Hk.
  rewrite elem_of_difference, elem_of_list_to_set.
  unfold entry_keys. rewrite list_elem_of_fmap.
  fold (popped max s). split.
  - intros [Hin Hnot]. split; [exact Hin|].
    intros ch l p Hl Hp Heq. apply Hnot. exists p. split; [auto|].
    apply elem_of_popped. eauto.
  - intros [Hin Hnot]. split; [exact Hin|].
    intros (p & -> & Hp). apply elem_of_popped in Hp as (ch & l & Hl & Hp).
    apply (Hnot ch l p Hl Hp). reflexivity.
Qed.

(** X4. In any state, after [prune(max)] a key is a member exactly when it
    was a member before and is not the identity of a popped entry: [prune]
    erases the identities of what it pops, nothing else, and adds none. *)
Theorem contains_prune k max s :
  contains k (prune max s) = true <->
  contains k s = true /\
  forall ch l p, tail_by_channel s !! ch = Some l ->
                 p ∈ drop_front max l -> key p.2 <> k.
Proof.
  unfold contains. rewrite !bool_decide_eq_true. apply elem_of_keys_prune.
Qed.

Lemma reachable_dedup_inv s :
  reachable_dedup s -> mirrors s /\ distinct_identities s.
Proof.
  induction 1 as [|e s Hs [IHm IHd] Hc|max s Hs [IHm IHd]].
  - split; [apply mirrors_new|apply distinct_new].
  - split; [apply mirrors_add, IHm|apply distinct_add; assumption].
  - split; [apply mirrors_prune; assumption|apply distinct_prune, IHd].
Qed.

(** X5. When every admission was guarded by the membership test, [prune(max)]
    answers for each stored entry of a channel by its position: the
    identities of the popped entries are no longer members, those of the
    last [max] entries still are. *)
Theorem contains_after_prune max s ch l p :
  reachable_dedup s ->
  tail_by_channel s !! ch = Some l ->
  (p ∈ drop_front max l -> contains (key p.2) (prune max s) = false) /\
  (p ∈ keep_last max l -> contains (key p.2) (prune max s) = true).
Proof.
  intros Hs Hl. split.
  - intros Hp. apply not_true_is_false. intros Hc.
    unfold contains in Hc. apply bool_decide_eq_true in Hc.
    apply elem_of_keys_prune in Hc as [_ Hnot].
    apply (Hnot ch l p Hl Hp). reflexivity.
  - intros Hp. unfold contains. apply bool_decide_eq_true.
    destruct (reachable_dedup_inv (prune max s)) as [Hm _].
    { apply reachable_dedup_prune, Hs. }
    rewrite Hm. apply elem_of_retained_keys.
    exists ch, (keep_last max l), p. split; [|split; [exact Hp|reflexivity]].
    rewrite prune_lookup, Hl. reflexivity.
Qed.

End More_membership.

Section More_prune.
Context `{X : Externals}.

Implicit Types (s : LogSummary) (e : LogEntry) (l : list (Z * LogEntry)).
Implicit Types (m : gmap string (list (Z * LogEntry))).

Lemma LogSummary_eq s1 s2 :
  version s1 = version s2 ->
  tail_by_channel s1 = tail_by_channel s2 ->
  summary_seq s1 = summary_seq s2 ->
  keys s1 = keys s2 ->
  s1 = s2.
Proof. destruct s1, s2. cbn. intros -> -> -> ->. reflexivity. Qed.

Lemma entries_fmap_app (f g h : list (Z * LogEntry) -> list (Z * LogEntry)) m :
  (forall l, f l = g l ++ h l) ->
  entries (f <$> m) ≡ₚ entries (g <$> m) ++ entries (h <$> m).
Proof.
  intros Hfgh. induction m as [|ch l m Hfresh IH] using map_ind.
  - rewrite !fmap_empty, entries_empty. reflexivity.
  - rewrite !fmap_insert.
    rewrite !entries_insert_fresh by (rewrite ?lookup_fmap, Hfresh; reflexivity).
    rewrite IH, Hfgh. solve_Permutation.
Qed.

Lemma entries_all_nil m :
  (forall ch l, m !! ch = Some l -> l = []) -> entries m = [].
Proof.
  intros H. apply elem_of_nil_inv. intros p Hp.
  apply elem_of_entries in Hp as (ch & l & Hl & Hin).
  rewrite (H _ _ Hl) in Hin. inversion Hin.
Qed.

Lemma keep_last_keep_last a b l :
  keep_last a (keep_last b l) = keep_last (a `min` b) l.
Proof.
  unfold keep_last. rewrite drop_drop, length_drop. f_equal. lia.
Qed.

Lemma drop_front_min a b l :
  drop_front (a `min` b) l = drop_front b l ++ drop_front a (keep_last b l).
Proof.
  unfold drop_front, keep_last. rewrite take_take_drop, length_drop.
  f_equal. lia.
Qed.

(** X6. Two prunes in a row are one prune with the smaller cap; in particular
    pruning twice with the same cap changes nothing the second time. *)
Theorem prune_prune a b s :
  prune a (prune b s) = prune (a `min` b) s.
Proof.
  destruct (prune_spec b s) as (Hv1 & Hq1 & Ht1 & Hk1).
  destruct (prune_spec a (prune b s)) as (Hv2 & Hq2 & Ht2 & Hk2).
  destruct (prune_spec (a `min` b) s) as (Hv3 & Hq3 & Ht3 & Hk3).
  apply LogSummary_eq.
  - congruence.
  - rewrite Ht2, Ht1, Ht3, <- map_fmap_compose.
    apply map_fmap_ext. intros ch l _. cbn. apply keep_last_keep_last.
  - congruence.
  - rewrite Hk2, Hk1, Hk3, Ht1.
    rewrite (list_to_set_perm_L (C := gset LogEntryKey)
               (entry_keys (entries (drop_front (a `min` b) <$> tail_by_channel s)))
               (entry_keys (entries (drop_front b <$> tail_by_channel s)
                            ++ entries (drop_front a <$> (keep_last b <$> tail_by_channel s))))).
    + unfold entry_keys. rewrite fmap_app, list_to_set_app_L. set_solver.
    + unfold entry_keys. apply fmap_Permutation.
      rewrite <- map_fmap_compose.
      apply (entries_fmap_app (drop_front (a `min` b)) (drop_front b)
               (drop_front a ∘ keep_last b)).
      intros l. cbn. apply drop_front_min.
Qed.

(** X7. When no channel is longer than the cap, [prune] changes nothing. *)
Theorem prune_within_cap max s :
  (forall ch l, tail_by_channel s !! ch = Some l -> (length l <= max)%nat) ->
  prune max s = s.
Proof.
  intros Hcap. destruct (prune_spec max s) as (Hv & Hq & Ht & Hk).
  apply LogSummary_eq; [exact Hv| |exact Hq|].
  - rewrite Ht. apply map_eq. intros ch. rewrite lookup_fmap.
    destruct (tail_by_channel s !! ch) as [l|] eqn:E; [|reflexivity].
    cbn. rewrite keep_last_short by (apply (Hcap _ _ E)). reflexivity.
  - rewrite Hk, entries_all_nil; [cbn; set_solver|].
    intros ch l' Hl. rewrite lookup_fmap in Hl.
    destruct (tail_by_channel s !! ch) as [l|] eqn:E; [|discriminate].
    cbn in Hl. injection Hl as <-. unfold drop_front.
    replace (length l - max)%nat with 0%nat by (specialize (Hcap _ _ E); lia).
    reflexivity.
Qed.

Lemma reachable_keys_subset s : reachable s -> keys s ⊆ retained_keys s.
Proof.
  induction 1 as [|e s Hs IH|max s Hs IH].
  - cbn. set_solver.
  - apply keys_subset_add, IH.
  - apply keys_subset_prune, IH.
Qed.

(** X8. [prune] never removes a channel and touches neither [version] nor
    [seq]; [prune(0)] leaves every channel with an empty list and, in every
    state reached by [add] and [prune], an empty set of keys. *)
Theorem prune_keeps_channels max s :
  dom (tail_by_channel (prune max s)) = dom (tail_by_channel s) /\
  version (prune max s) = version s /\
  summary_seq (prune max s) = summary_seq s /\
  (forall ch, ch ∈ dom (tail_by_channel s) ->
              tail_by_channel (prune 0 s) !! ch = Some []) /\
  (reachable s -> keys (prune 0 s) = ∅).
Proof.
  destruct (prune_spec max s) as (Hv & Hq & Ht & _).
  split; [rewrite Ht; apply dom_fmap_L|].
  split; [exact Hv|]. split; [exact Hq|]. split.
  - intros ch Hch. apply elem_of_dom in Hch as [l Hl].
    rewrite prune_lookup, Hl. cbn. unfold keep_last.
    rewrite Nat.sub_0_r, drop_all. reflexivity.
  - intros Hr. pose proof (reachable_keys_subset s Hr) as Hsub.
    apply set_eq. intros k. split; [|set_solver].
    intros Hk. exfalso. apply elem_of_keys_prune in Hk as [Hin Hnot].
    apply Hsub, elem_of_retained_keys in Hin as (ch & l & p & Hl & Hp & Hkey).
    apply (Hnot ch l p Hl); [|exact Hkey].
    unfold drop_front. rewrite Nat.sub_0_r, firstn_all. exact Hp.
Qed.

Lemma entries_keep_last_length max m :
  (length (entries (keep_last max <$> m)) <= max * size m)%nat.
Proof.
  induction m as [|ch l m Hfresh IH] using map_ind.
  - rewrite fmap_empty, entries_empty. cbn. lia.
  - rewrite fmap_insert, entries_length_insert_fresh
      by (rewrite lookup_fmap, Hfresh; reflexivity).
    rewrite map_size_insert_None by exact Hfresh.
    pose proof (keep_last_length max l). lia.
Qed.

(** X9. Retention is bounded: after [prune(max)] the summary holds at most
    [max] entries per channel, [max] times the number of channels in all. *)
Theorem prune_total_bound max s :
  (total_length (prune max s) <= max * size (tail_by_channel s))%nat.
Proof.
  rewrite total_length_entries.
  destruct (prune_spec max s) as (_ & _ & Ht & _). rewrite Ht.
  apply entries_keep_last_length.
Qed.

End More_prune.

Section More_histories.
Context `{X : Externals}.

Implicit Types (s : LogSummary) (e : LogEntry) (l : list (Z * LogEntry)).

(** X10. [add] grows the list of the record's channel by one entry and
    nothing else: the channel is there afterwards, the other channels and
    [version] are as before, and the summary holds one entry more. *)
Theorem add_grows_one_channel e s :
  version (add e s) = version s /\
  dom (tail_by_channel (add e s)) = {[ channel e ]} ∪ dom (tail_by_channel s) /\
  (forall ch, ch <> channel e ->
              tail_by_channel (add e s) !! ch = tail_by_channel s !! ch) /\
  length (channel_list (tail_by_channel (add e s)) (channel e))
    = S (length (channel_list (tail_by_channel s) (channel e))) /\
  total_length (add e s) = S (total_length s).
Proof.
  split; [reflexivity|]. split; [apply dom_insert_L|].
  split; [intros ch Hne; apply add_lookup_other, Hne|]. split.
  - rewrite add_channel_list_same, length_app. cbn. lia.
  - rewrite !total_length_entries. apply add_entries_length.
Qed.

Lemma prune_total_length max s : (total_length (prune max s) <= total_length s)%nat.
Proof.
  rewrite !total_length_entries.
  destruct (prune_spec max s) as (_ & _ & Ht & _). rewrite Ht.
  rewrite (entries_split max (tail_by_channel s)), length_app. lia.
Qed.

(** X11. Over any history of [add] and [prune] calls [version] never changes,
    no channel ever disappears (the channels afterwards are those before
    and those of the admitted records), and the summary holds at most one
    entry more per admission. *)
Theorem run_version_channels ops s :
  version (run ops s) = version s /\
  dom (tail_by_channel (run ops s))
    = dom (tail_by_channel s) ∪ added_channels ops /\
  (total_length (run ops s) <= total_length s + adds ops)%nat.
Proof.
  revert s. induction ops as [|[e|max] ops IH]; intros s.
  - cbn. split; [reflexivity|]. split; [set_solver|lia].
  - destruct (IH (add e s)) as (Hv & Hd & Hn).
    cbn [run foldl step added_channels adds] in *. unfold run in *.
    split; [rewrite Hv; reflexivity|]. split.
    + rewrite Hd. cbn. rewrite dom_insert_L. set_solver.
    + assert (Hl : total_length (add e s) = S (total_length s)).
      { rewrite !total_length_entries. apply add_entries_length. }
      lia.
  - destruct (IH (prune max s)) as (Hv & Hd & Hn).
    destruct (prune_spec max s) as (Hpv & _ & Hpt & _).
    cbn [run foldl step added_channels adds] in *. unfold run in *.
    split; [congruence|]. split.
    + rewrite Hd, Hpt, dom_fmap_L. reflexivity.
    + pose proof (prune_total_length max s). lia.
Qed.

(** X12. The counter counts the admissions modulo [2^64]: after a history with
    [n] calls of [add], from a state whose counter is a 64-bit value, it
    stands at the old value plus [n], wrapped; [prune] never moves it. *)
Theorem run_counter ops s :
  0 <= summary_seq s < uint64_mod ->
  summary_seq (run ops s) = wrap64 (summary_seq s + Z.of_nat (adds ops)).
Proof.
  revert s. induction ops as [|[e|max] ops IH]; intros s Hr.
  - cbn. rewrite Z.add_0_r. symmetry. apply wrap64_small, Hr.
  - cbn [run foldl step adds]. unfold run in IH. rewrite IH.
    + cbn [add summary_seq]. unfold wrap64.
      rewrite Zplus_mod_idemp_l. f_equal. lia.
    + cbn [add summary_seq]. apply wrap64_range.
  - cbn [run foldl step adds]. unfold run in IH. rewrite IH.
    + rewrite prune_seq. reflexivity.
    + rewrite prune_seq. exact Hr.
Qed.

Lemma seq_unique_new : seq_unique LogSummary_new.
Proof.
  split; [cbn; unfold uint64_mod; lia|]. cbn. rewrite entries_empty.
  split; constructor.
Qed.

Lemma seq_unique_add e s :
  seq_unique s -> summary_seq s + 1 < uint64_mod -> seq_unique (add e s).
Proof.
  intros (Hr & Hnd & Hb) Hno.
  assert (Hq : summary_seq (add e s) = summary_seq s + 1) by (apply add_seq; lia).
  split; [rewrite Hq; lia|].
  pose proof (entries_add e s) as Hp. rewrite Hq in *. split.
  - rewrite Hp, fmap_app. apply NoDup_app. split; [exact Hnd|]. split.
    + intros z Hz Hin. cbn in Hin. apply list_elem_of_singleton in Hin. subst z.
      apply list_elem_of_fmap in Hz as (p & Hpz & Hin).
      rewrite Forall_forall in Hb. specialize (Hb p Hin). lia.
    + cbn. apply NoDup_singleton.
  - rewrite Hp. apply Forall_app. split.
    + eapply Forall_impl; [exact Hb|]. cbn. intros p Hin. lia.
    + repeat constructor; cbn; lia.
Qed.

Lemma seq_unique_prune max s : seq_unique s -> seq_unique (prune max s).
Proof.
  intros (Hr & Hnd & Hb).
  destruct (prune_spec max s) as (_ & Hq & Ht & _).
  pose proof (entries_split max (tail_by_channel s)) as Hp.
  unfold seq_unique. rewrite Hq, Ht. split; [exact Hr|].
  rewrite Hp in Hnd, Hb. split.
  - rewrite fmap_app in Hnd. apply NoDup_app in Hnd. tauto.
  - apply Forall_app in Hb. tauto.
Qed.

(** X13. As long as the counter does not wrap, no assigned number is stored
    twice, in one channel or in two: from a state where the stored numbers
    are distinct and lie between 1 and the counter (the empty summary is
    one), every history of [add] and [prune] calls leads to such a state. *)
Theorem run_seq_unique ops s :
  seq_unique s ->
  summary_seq s + Z.of_nat (adds ops) < uint64_mod ->
  seq_unique (run ops s).
Proof.
  revert s. induction ops as [|[e|max] ops IH]; intros s Hs Hno.
  - exact Hs.
  - cbn [run foldl step adds] in *. apply IH.
    + apply seq_unique_add; [exact Hs|lia].
    + destruct Hs as (Hr & _). rewrite add_seq by lia. lia.
  - cbn [run foldl step adds] in *. apply IH.
    + apply seq_unique_prune, Hs.
    + rewrite prune_seq. exact Hno.
Qed.

Lemma size_list_to_set_le (l : list LogEntryKey) :
  (size (list_to_set l : gset LogEntryKey) <= length l)%nat.
Proof.
  induction l as [|k l IH]; cbn.
  - rewrite size_empty. lia.
  - rewrite size_union_alt, size_singleton.
    assert (size ((list_to_set l : gset LogEntryKey) ∖ {[k]})
            <= size (list_to_set l : gset LogEntryKey))%nat
      by (apply subseteq_size; set_solver).
    lia.
Qed.

(** X14. The set of keys never has more members than there are stored
    entries, in any state reached by [add] and [prune]; when every
    admission was guarded by the membership test it has exactly as many. *)
Theorem keys_size s :
  (reachable s -> (size (keys s) <= total_length s)%nat) /\
  (reachable_dedup s -> size (keys s) = total_length s).
Proof.
  rewrite total_length_entries. split.
  - intros Hr. pose proof (reachable_keys_subset s Hr) as Hsub.
    apply subseteq_size in Hsub. unfold retained_keys in Hsub.
    pose proof (size_list_to_set_le (entry_keys (entries (tail_by_channel s)))).
    unfold entry_keys in *. rewrite length_fmap in *. lia.
  - intros Hd. destruct (reachable_dedup_inv s Hd) as [Hm Hnd].
    rewrite Hm. unfold retained_keys.
    rewrite size_list_to_set by exact Hnd.
    unfold entry_keys. apply length_fmap.
Qed.

(** X15. Every record is stored in the list of the channel it names, in every
    state reached by [add] and [prune]. *)
Theorem reachable_stored_by_channel s :
  reachable s -> stored_by_channel s.
Proof.
  induction 1 as [|e s Hs IH|max s Hs IH]; intros ch l p Hl Hp.
  - cbn in Hl. rewrite lookup_empty in Hl. discriminate.
  - destruct (decide (ch = channel e)) as [->|Hne].
    + rewrite add_lookup_same in Hl. injection Hl as <-.
      apply elem_of_app in Hp as [Hp|Hp].
      * unfold channel_list in Hp.
        destruct (tail_by_channel s !! channel e) as [l0|] eqn:E; cbn in Hp.
        -- apply (IH _ _ _ E Hp).
        -- inversion Hp.
      * apply list_elem_of_singleton in Hp. subst p. reflexivity.
    + rewrite add_lookup_other in Hl by exact Hne. apply (IH _ _ _ Hl Hp).
  - rewrite prune_lookup in Hl.
    destruct (tail_by_channel s !! ch) as [l0|] eqn:E; [|discriminate].
    cbn in Hl. injection Hl as <-.
    apply (IH _ _ _ E). unfold keep_last in Hp.
    apply (subseteq_drop _ _ _ Hp).
Qed.


End More_histories.

Section More_severity.

(** X18. [operator<<] prints the same tag for two values exactly when
    they are equal or both are outside the five named severities, all of
    which print the tag of the [default:] branch: the tag tells the five
    named severities apart and from the rest, and nothing more. *)
Theorem clog_type_out_same_tag (v1 v2 : Z) :
  clog_type_out v1 = clog_type_out v2 <->
  v1 = v2 \/ (~ 0 <= v1 <= 4 /\ ~ 0 <= v2 <= 4).
Proof.
  unfold clog_type_out.
  destruct (Z.eqb_spec v1 0), (Z.eqb_spec v1 1), (Z.eqb_spec v1 2),
    (Z.eqb_spec v1 3), (Z.eqb_spec v1 4); try lia;
  destruct (Z.eqb_spec v2 0), (Z.eqb_spec v2 1), (Z.eqb_spec v2 2),
    (Z.eqb_spec v2 3), (Z.eqb_spec v2 4); try lia;
  (split; [intros H; try discriminate H; lia|intros H; try reflexivity; lia]).
Qed.

End More_severity.

Section More_newest.
Context `{X : Externals}.

Implicit Types (s : LogSummary) (e : LogEntry) (l : list (Z * LogEntry)).

Lemma keep_last_snoc max l x :
  (1 <= max)%nat -> keep_last max (l ++ [x]) = keep_last (max - 1) l ++ [x].
Proof.
  intros Hmax. unfold keep_last. rewrite length_app. cbn [length].
  rewrite drop_app_le by lia. f_equal. f_equal. lia.
Qed.

(** X17. With a cap of at least one, the record admitted last survives a
    [prune]: it is the last entry of its channel, under the number it was
    given; and when the admission was guarded by the membership test its
    identity is still a member. *)
Theorem newest_survives_prune max e s :
  (1 <= max)%nat ->
  last (channel_list (tail_by_channel (prune max (add e s))) (channel e))
    = Some (summary_seq (add e s), e) /\
  (reachable_dedup s -> contains (key e) s = false ->
   contains (key e) (prune max (add e s)) = true).
Proof.
  intros Hmax.
  assert (Hl : tail_by_channel (prune max (add e s)) !! channel e
               = Some (keep_last (max - 1) (channel_list (tail_by_channel s) (channel e))
                       ++ [(summary_seq (add e s), e)])).
  { rewrite prune_lookup, add_lookup_same. cbn [fmap option_fmap option_map].
    rewrite keep_last_snoc by exact Hmax. reflexivity. }
  split.
  - unfold channel_list at 1. rewrite Hl. cbn [default]. apply last_snoc.
  - intros Hs Hc. unfold contains. apply bool_decide_eq_true.
    destruct (reachable_dedup_inv (prune max (add e s))) as [Hm _].
    { apply reachable_dedup_prune, reachable_dedup_add; assumption. }
    rewrite Hm. apply elem_of_retained_keys.
    eexists _, _, (summary_seq (add e s), e).
    split; [exact Hl|]. split; [|reflexivity].
    apply elem_of_app. right. apply list_elem_of_singleton. reflexivity.
Qed.

End More_newest.

(** * Further examples on the sample instance *)

Section More_examples.
Import Sample Sample_states.

Lemma three_reachable_dedup : reachable_dedup three.
Proof.
  unfold three.
  repeat (apply reachable_dedup_add; [|vm_compute; reflexivity]).
  apply reachable_dedup_new.
Qed.

Lemma three_cluster :
  tail_by_channel three !! CLOG_CHANNEL_CLUSTER = Some [(1, rec_x); (3, rec_z)].
Proof. vm_compute. reflexivity. Qed.

(** X5, witness. With a cap of one the cluster channel pops [rec_x] and keeps
    [rec_z]. *)
Lemma contains_after_prune_witness :
  contains (key rec_x) (prune 1 three) = false /\
  contains (key rec_z) (prune 1 three) = true.
Proof.
  split.
  - apply (proj1 (contains_after_prune 1 three CLOG_CHANNEL_CLUSTER
                    [(1, rec_x); (3, rec_z)] (1, rec_x)
                    three_reachable_dedup three_cluster)).
    change (drop_front 1 [(1, rec_x); (3, rec_z)]) with [(1, rec_x)].
    apply list_elem_of_singleton. reflexivity.
  - apply (proj2 (contains_after_prune 1 three CLOG_CHANNEL_CLUSTER
                    [(1, rec_x); (3, rec_z)] (3, rec_z)
                    three_reachable_dedup three_cluster)).
    change (keep_last 1 [(1, rec_x); (3, rec_z)]) with [(3, rec_z)].
    apply list_elem_of_singleton. reflexivity.
Defined.

(** X7, witness. No channel of [three] holds more than two entries. *)
Lemma prune_within_cap_witness : prune 2 three = three.
Proof.
  apply prune_within_cap. intros ch l Hl.
  assert (Hin : l ∈ (map_to_list (tail_by_channel three)).*2).
  { apply list_elem_of_fmap. exists (ch, l). split; [reflexivity|].
    apply elem_of_map_to_list. exact Hl. }
  assert (Hall : Forall (fun l => (length l <= 2)%nat)
                   (map_to_list (tail_by_channel three)).*2).
  { vm_compute. repeat constructor. }
  rewrite Forall_forall in Hall. apply (Hall _ Hin).
Defined.

(** X8, witness. Pruning everything away from a reachable state. *)
Lemma prune_keeps_channels_witness :
  dom (tail_by_channel (prune 0 three)) = dom (tail_by_channel three) /\
  keys (prune 0 three) = ∅.
Proof.
  destruct (prune_keeps_channels 0 three) as (Hd & _ & _ & _ & Hk).
  split; [exact Hd|]. apply Hk. unfold three.
  repeat apply reachable_add. apply reachable_new.
Defined.

(** X12, witness. Three admissions from the empty summary. *)
Lemma run_counter_witness : summary_seq (run three_ops LogSummary_new) = 3.
Proof.
  assert (Hr : 0 <= summary_seq LogSummary_new < uint64_mod)
    by (cbn; unfold uint64_mod; lia).
  rewrite (run_counter three_ops LogSummary_new Hr). reflexivity.
Defined.

(** X13, witness. *)
Lemma run_seq_unique_witness : seq_unique (run three_ops LogSummary_new).
Proof.
  apply run_seq_unique; [apply seq_unique_new|].
  vm_compute. reflexivity.
Defined.

(** X14, witness. *)
Lemma keys_size_witness :
  (size (keys three) <= total_length three)%nat /\
  size (keys three) = total_length three.
Proof.
  destruct (keys_size three) as [Hle Heq].
  split; [apply Hle|apply Heq, three_reachable_dedup].
  unfold three. repeat apply reachable_add. apply reachable_new.
Defined.

(** X15, witness. *)
Lemma reachable_stored_by_channel_witness : stored_by_channel three.
Proof.
  apply reachable_stored_by_channel. unfold three.
  repeat apply reachable_add. apply reachable_new.
Defined.


(** X17, witness. [rec_z] admitted last, then a cap of one. *)
Lemma newest_survives_prune_witness :
  last (channel_list (tail_by_channel
          (prune 1 (add rec_z (add rec_y (add rec_x LogSummary_new)))))
          CLOG_CHANNEL_CLUSTER)
    = Some (3, rec_z).
Proof.
  assert (Hmax : (1 <= 1)%nat) by lia.
  exact (proj1 (newest_survives_prune 1 rec_z
                  (add rec_y (add rec_x LogSummary_new)) Hmax)).
Defined.

(** C6, witness: a record with the default rank, the default stamp and
    the sequence number 0 is admitted; its key equals the default key under
    [operator==], and the sample hash sends the default rank to 1, so the
    default key is not found. *)
Lemma default_key_hash_inconsistent_witness :
  key_eqb LogEntryKey_default (key (entry 0 0 0 "x" CLOG_CHANNEL_CLUSTER)) = true /\
  contains LogEntryKey_default
    (add (entry 0 0 0 "x" CLOG_CHANNEL_CLUSTER) LogSummary_new) = false.
Proof.
  destruct (@default_key_hash_inconsistent externals) as (_ & _ & _ & _ & _ & _ & He).
  destruct (He (entry 0 0 0 "x" CLOG_CHANNEL_CLUSTER) eq_refl eq_refl eq_refl)
    as [Heq Hc].
  split; [exact Heq|].
  apply not_true_is_false. intros H. apply Hc in H. discriminate H.
Defined.

(** C10, witness: the default key against the key built from the default
    rank, the stamp 1 and the sequence number 0. *)
Lemma default_key_hash_not_from_fields_witness :
  key_eqb LogEntryKey_default (LogEntryKey_new 0 1 0) = false /\
  get_hash LogEntryKey_default = 0 /\
  get_hash (LogEntryKey_new 0 1 0) = 1.
Proof.
  assert (Hne : (1 : utime_t) <> utime_t_default) by discriminate.
  destruct (@default_key_hash_not_from_fields externals 1 Hne)
    as (_ & _ & _ & Heq & Hb & Ha & _).
  split; [exact Heq|]. split; [exact Ha|exact Hb].
Defined.

End More_examples.
